(** * Needleman-Wunsch pairwise alignment and progressive MSA

    A shallow embedding of [custom_msa.py]: the dynamic-programming
    matrix, the traceback loop, gap propagation and the progressive
    driver, followed by the properties the specification states about
    them. *)

From Stdlib Require Import ZArith Ascii String Lia.
From stdpp Require Import base tactics option list list_numbers sets strings.

Local Open Scope Z_scope.

(** ** Python runtime model *)

(** Exceptions the modelled code can raise. *)
Inductive exn : Type :=
  | IndexError
  | ValueError.

(** Outcome of running a piece of Python code: a value, a raised
    exception, or an exhausted step budget of a [while] loop. *)
Inductive outcome (A : Type) : Type :=
  | Return (a : A)
  | Raise (e : exn)
  | OutOfFuel.

Arguments Return {A} a.
Arguments Raise {A} e.
Arguments OutOfFuel {A}.

#[global] Instance outcome_ret : MRet outcome := λ A a, Return a.
#[global] Instance outcome_bind : MBind outcome := λ A B f m,
  match m with
  | Return a => f a
  | Raise e => Raise e
  | OutOfFuel => OutOfFuel
  end.

(** A Python [str] is a sequence of characters. *)
Abbreviation str := (list ascii).

Definition gap_char : ascii := "-"%char.

Definition len {A} (l : list A) : Z := Z.of_nat (length l).

(** [l[k]]: a negative index counts from the end, anything outside
    the list raises [IndexError]. *)
Definition py_index {A} (l : list A) (k : Z) : outcome A :=
  let k' := if k <? 0 then k + len l else k in
  if k' <? 0 then Raise IndexError
  else match l !! Z.to_nat k' with
       | Some x => Return x
       | None => Raise IndexError
       end.

(** [l[k] = v] on a list. *)
Definition py_store {A} (l : list A) (k : Z) (v : A) : outcome (list A) :=
  let k' := if k <? 0 then k + len l else k in
  if k' <? 0 then Raise IndexError
  else if k' <? len l then Return (<[Z.to_nat k' := v]> l)
  else Raise IndexError.

(** The slices [s[:i]] and [s[i:]]. *)
Definition py_clamp {A} (l : list A) (i : Z) : nat :=
  let i' := if i <? 0 then i + len l else i in
  Z.to_nat (Z.min (Z.max i' 0) (len l)).

Definition py_slice_to {A} (l : list A) (i : Z) : list A := take (py_clamp l i) l.
Definition py_slice_from {A} (l : list A) (i : Z) : list A := drop (py_clamp l i) l.

(** [range(a, b)] and [enumerate(l)]. *)
Definition range (a b : Z) : list Z := seqZ a (b - a).

Definition enumerate {A} (l : list A) : list (Z * A) := zip (seqZ 0 (len l)) l.

(** [s.ljust(width, fill)]. *)
Definition ljust (s : str) (width : Z) (fill : ascii) : str :=
  s ++ replicate (Z.to_nat (width - len s)) fill.

(** [max(xs)] of a sequence of integers; empty input raises [ValueError]. *)
Definition py_max (xs : list Z) : outcome Z :=
  match xs with
  | [] => Raise ValueError
  | x :: xs' => Return (foldl Z.max x xs')
  end.

(** [for x in xs: s = body(x, s)]. *)
Fixpoint for_each {X S : Type} (xs : list X) (body : X → S → outcome S) (s : S)
  : outcome S :=
  match xs with
  | [] => Return s
  | x :: xs' => s' ← body x s; for_each xs' body s'
  end.

(** ** The scoring matrix *)

Abbreviation matrix := (list (list Z)).

(** [dp[i][j]] and [dp[i][j] = v]. *)
Definition dp_get (dp : matrix) (i j : Z) : outcome Z :=
  row ← py_index dp i; py_index row j.

Definition dp_set (dp : matrix) (i j : Z) (v : Z) : outcome matrix :=
  row ← py_index dp i;
  row' ← py_store row j v;
  py_store dp i row'.

(** [match if seq1[i-1] == seq2[j-1] else mismatch]. *)
Definition match_score (seq1 seq2 : str) (match_ mismatch : Z) (i j : Z) : outcome Z :=
  c1 ← py_index seq1 (i - 1);
  c2 ← py_index seq2 (j - 1);
  Return (if Ascii.eqb c1 c2 then match_ else mismatch).

(** Lines 10-26 of [needleman_wunsch]: allocation, borders, fill. *)
Definition build_dp (seq1 seq2 : str) (match_ mismatch gap : Z) : outcome matrix :=
  let m := len seq1 in
  let n := len seq2 in
  let dp := replicate (Z.to_nat (m + 1)) (replicate (Z.to_nat (n + 1)) 0) in
  dp ← for_each (range 0 (m + 1)) (λ i dp, dp_set dp i 0 (i * gap)) dp;
  dp ← for_each (range 0 (n + 1)) (λ j dp, dp_set dp 0 j (j * gap)) dp;
  for_each (range 1 (m + 1)) (λ i dp,
    for_each (range 1 (n + 1)) (λ j dp,
      ms ← match_score seq1 seq2 match_ mismatch i j;
      d ← dp_get dp (i - 1) (j - 1);
      u ← dp_get dp (i - 1) j;
      l ← dp_get dp i (j - 1);
      dp_set dp i j (Z.max (Z.max (d + ms) (u + gap)) (l + gap))) dp) dp.

(** ** Traceback *)

(** The three arms of the traceback conditional. *)
Inductive move : Type :=
  | Diagonal
  | Vertical
  | Horizontal.

(** Loop state: the cursor and the two strings built so far. *)
Definition tb_state : Type := Z * Z * str * str.

(** Which arm the conditional at lines 32-41 selects at cursor [(i, j)]. *)
Definition tb_branch (dp : matrix) (seq1 seq2 : str) (match_ mismatch gap : Z)
    (i j : Z) : outcome move :=
  c1 ← (if (0 <? i) && (0 <? j) then
          d ← dp_get dp i j;
          d' ← dp_get dp (i - 1) (j - 1);
          ms ← match_score seq1 seq2 match_ mismatch i j;
          Return (d =? d' + ms)
        else Return false);
  if c1 : bool then Return Diagonal
  else
    c2 ← (if 0 <? i then
            d ← dp_get dp i j;
            u ← dp_get dp (i - 1) j;
            Return (d =? u + gap)
          else Return false);
    if c2 : bool then Return Vertical else Return Horizontal.

(** The body of the selected arm. *)
Definition tb_move (seq1 seq2 : str) (mv : move) (st : tb_state) : outcome tb_state :=
  let '(i, j, aligned_seq1, aligned_seq2) := st in
  match mv with
  | Diagonal =>
      a ← py_index seq1 (i - 1);
      b ← py_index seq2 (j - 1);
      Return (i - 1, j - 1, a :: aligned_seq1, b :: aligned_seq2)
  | Vertical =>
      a ← py_index seq1 (i - 1);
      Return (i - 1, j, a :: aligned_seq1, gap_char :: aligned_seq2)
  | Horizontal =>
      b ← py_index seq2 (j - 1);
      Return (i, j - 1, gap_char :: aligned_seq1, b :: aligned_seq2)
  end.

Definition tb_step (dp : matrix) (seq1 seq2 : str) (match_ mismatch gap : Z)
    (st : tb_state) : outcome tb_state :=
  let '(i, j, _, _) := st in
  mv ← tb_branch dp seq1 seq2 match_ mismatch gap i j;
  tb_move seq1 seq2 mv st.

(** [while i > 0 or j > 0: ...], run under a step budget. *)
Fixpoint traceback (fuel : nat) (dp : matrix) (seq1 seq2 : str)
    (match_ mismatch gap : Z) (st : tb_state) : outcome tb_state :=
  let '(i, j, _, _) := st in
  if (0 <? i) || (0 <? j) then
    match fuel with
    | O => OutOfFuel
    | S fuel' =>
        st' ← tb_step dp seq1 seq2 match_ mismatch gap st;
        traceback fuel' dp seq1 seq2 match_ mismatch gap st'
    end
  else Return st.

Definition needleman_wunsch (fuel : nat) (seq1 seq2 : str) (match_ mismatch gap : Z)
  : outcome (Z * str * str) :=
  let m := len seq1 in
  let n := len seq2 in
  dp ← build_dp seq1 seq2 match_ mismatch gap;
  '(_, _, aligned_seq1, aligned_seq2) ←
    traceback fuel dp seq1 seq2 match_ mismatch gap (m, n, [], []);
  score ← dp_get dp m n;
  Return (score, aligned_seq1, aligned_seq2).

(** ** Progressive alignment *)

Definition propagate_gaps_to_msa (msa : list str) (aligned_seq : str) (seq_index : Z)
  : outcome (list str) :=
  msa ← for_each (enumerate aligned_seq) (λ '(i, char) msa,
    if Ascii.eqb char gap_char then
      for_each (range 0 (len msa)) (λ j msa,
        if negb (j =? seq_index) then
          row ← py_index msa j;
          py_store msa j (py_slice_to row i ++ gap_char :: py_slice_from row i)
        else Return msa) msa
    else Return msa) msa;
  py_store msa seq_index aligned_seq.

(** Body of the progressive loop, lines 60-62. *)
Definition msa_step (fuel : nat) (match_ mismatch gap : Z) (seq : str)
    (msa_result : list str) : outcome (list str) :=
  row0 ← py_index msa_result 0;
  '(_, aligned_seq1, aligned_seq2) ←
    needleman_wunsch fuel row0 seq match_ mismatch gap;
  msa_result ← propagate_gaps_to_msa msa_result aligned_seq1 0;
  Return (msa_result ++ [aligned_seq2]).

(** Lines 58-62: seed with the first sequence, then fold in the rest. *)
Definition msa_loop (fuel : nat) (sequences : list str) (match_ mismatch gap : Z)
  : outcome (list str) :=
  s0 ← py_index sequences 0;
  for_each (drop 1 sequences) (msa_step fuel match_ mismatch gap) [s0].

(** Lines 64-66: right-pad every row to the longest one. *)
Definition pad_rows (msa_result : list str) : outcome (list str) :=
  max_length ← py_max (len <$> msa_result);
  Return ((λ seq, ljust seq max_length gap_char) <$> msa_result).

(** Lines 68-73: sum of the pairwise scores of the padded rows. *)
Definition pair_scores (fuel : nat) (msa_result : list str) (match_ mismatch gap : Z)
  : outcome Z :=
  for_each (range 0 (len msa_result)) (λ i final_score,
    for_each (range (i + 1) (len msa_result)) (λ j final_score,
      ri ← py_index msa_result i;
      rj ← py_index msa_result j;
      '(score, _, _) ← needleman_wunsch fuel ri rj match_ mismatch gap;
      Return (final_score + score)) final_score) 0.

Definition msa (fuel : nat) (sequences : list str) (match_ mismatch gap : Z)
  : outcome (Z * list str) :=
  msa_result ← msa_loop fuel sequences match_ mismatch gap;
  msa_result ← pad_rows msa_result;
  final_score ← pair_scores fuel msa_result match_ mismatch gap;
  Return (final_score, msa_result).

(** ** Global alignments

    An alignment is a list of columns; no column holds two gaps. *)

Inductive column : Type :=
  | Paired (a b : ascii)
  | GapBelow (a : ascii)
  | GapAbove (b : ascii).

(** The two printed rows of an alignment. *)
Definition top (c : column) : ascii :=
  match c with
  | Paired a _ | GapBelow a => a
  | GapAbove _ => gap_char
  end.

Definition bottom (c : column) : ascii :=
  match c with
  | Paired _ b | GapAbove b => b
  | GapBelow _ => gap_char
  end.

(** The symbols of each sequence that an alignment consumes. *)
Fixpoint residues1 (al : list column) : str :=
  match al with
  | [] => []
  | Paired a _ :: al' | GapBelow a :: al' => a :: residues1 al'
  | GapAbove _ :: al' => residues1 al'
  end.

Fixpoint residues2 (al : list column) : str :=
  match al with
  | [] => []
  | Paired _ b :: al' | GapAbove b :: al' => b :: residues2 al'
  | GapBelow _ :: al' => residues2 al'
  end.

Definition aligns (al : list column) (A B : str) : Prop :=
  residues1 al = A ∧ residues2 al = B.

Definition pair_score (match_ mismatch : Z) (a b : ascii) : Z :=
  if Ascii.eqb a b then match_ else mismatch.

Definition col_score (match_ mismatch gap : Z) (c : column) : Z :=
  match c with
  | Paired a b => pair_score match_ mismatch a b
  | GapBelow _ | GapAbove _ => gap
  end.

Fixpoint al_score (match_ mismatch gap : Z) (al : list column) : Z :=
  match al with
  | [] => 0
  | c :: al' => col_score match_ mismatch gap c + al_score match_ mismatch gap al'
  end.

(** [v] is the best score any global alignment of [A] and [B] reaches. *)
Definition max_alignment_score (match_ mismatch gap : Z) (A B : str) (v : Z) : Prop :=
  (∃ al, aligns al A B ∧ al_score match_ mismatch gap al = v) ∧
  (∀ al, aligns al A B → al_score match_ mismatch gap al ≤ v).

(** The recurrence read off two prefixes given last symbol first. *)
Fixpoint optr (match_ mismatch gap : Z) (ra rb : str) {struct ra} : Z :=
  match ra with
  | [] => len rb * gap
  | a :: ra' =>
      (fix inner (rb : str) : Z :=
         match rb with
         | [] => len ra * gap
         | b :: rb' =>
             Z.max (Z.max (optr match_ mismatch gap ra' rb' + pair_score match_ mismatch a b)
                          (optr match_ mismatch gap ra' rb + gap))
                   (inner rb' + gap)
         end) rb
  end.

Arguments optr : simpl never.

Definition opt (match_ mismatch gap : Z) (seq1 seq2 : str) (i j : nat) : Z :=
  optr match_ mismatch gap (reverse (take i seq1)) (reverse (take j seq2)).

(** Total read of a matrix cell, for stating what the matrix holds. *)
Definition cell (dp : matrix) (i j : Z) : Z :=
  default 0 (row ← dp !! Z.to_nat i; row !! Z.to_nat j).

Definition shaped (dp : matrix) (m n : Z) : Prop :=
  len dp = m + 1 ∧ Forall (λ row, len row = n + 1) dp.

Definition remove_gaps (x : str) : str :=
  filter (λ c, c ≠ gap_char) x.

Definition gap_free (x : str) : Prop := gap_char ∉ x.

Definition count_gaps (x : str) : nat :=
  length (filter (λ c, c = gap_char) x).

Definition same_length (rows : list str) : Prop :=
  ∀ r1 r2, r1 ∈ rows → r2 ∈ rows → length r1 = length r2.

(** A string literal as a [str]. *)
Definition py_str (x : string) : str := list_ascii_of_string x.

(** The same alignment read with the two sequences exchanged. *)
Definition swap_col (c : column) : column :=
  match c with
  | Paired a b => Paired b a
  | GapBelow a => GapAbove a
  | GapAbove b => GapBelow b
  end.

(** [row[:i] + "-" + row[i:]]. *)
Definition insert_gap (i : Z) (row : str) : str :=
  py_slice_to row i ++ gap_char :: py_slice_from row i.

(** [row] after one gap went in at every index, taken in increasing
    order, where [aligned] holds the gap symbol; once [row] is used up
    the remaining gaps land at its end. *)
Fixpoint weave (aligned row : str) : str :=
  match aligned with
  | [] => row
  | c :: aligned' =>
      if Ascii.eqb c gap_char then gap_char :: weave aligned' row
      else match row with
           | [] => weave aligned' []
           | x :: row' => x :: weave aligned' row'
           end
  end.

(** Apply [f] to every row except the one at [seq_index]. *)
Definition others (f : str → str) (seq_index : Z) (rows : list str) : list str :=
  imap (λ j row, if bool_decide (Z.of_nat j = seq_index) then row else f row) rows.

(** What the matrix holds once [build_dp] is done. *)
Definition filled (seq1 seq2 : str) (match_ mismatch gap : Z) (dp : matrix) : Prop :=
  shaped dp (len seq1) (len seq2) ∧
  ∀ i j, 0 ≤ i ≤ len seq1 → 0 ≤ j ≤ len seq2 →
    cell dp i j = opt match_ mismatch gap seq1 seq2 (Z.to_nat i) (Z.to_nat j).

(** What the arm taken at [(i, j)] says about the recurrence. *)
Definition move_spec (seq1 seq2 : str) (match_ mismatch gap : Z)
    (mv : move) (i j : Z) : Prop :=
  let o := λ i j : Z, opt match_ mismatch gap seq1 seq2 (Z.to_nat i) (Z.to_nat j) in
  match mv with
  | Diagonal =>
      0 < i ∧ 0 < j ∧
      ∃ a b, seq1 !! Z.to_nat (i - 1) = Some a ∧ seq2 !! Z.to_nat (j - 1) = Some b ∧
        o i j = o (i - 1) (j - 1) + pair_score match_ mismatch a b
  | Vertical =>
      0 < i ∧ ∃ a, seq1 !! Z.to_nat (i - 1) = Some a ∧ o i j = o (i - 1) j + gap
  | Horizontal =>
      0 < j ∧ ∃ b, seq2 !! Z.to_nat (j - 1) = Some b ∧ o i j = o i (j - 1) + gap
  end.

(** Loop invariant of the traceback: the strings built so far print an
    alignment of the two suffixes behind the cursor, and its score is
    what the recurrence lost on the way from the bottom-right corner. *)
Definition tb_inv (seq1 seq2 : str) (match_ mismatch gap : Z) (st : tb_state) : Prop :=
  let o := λ i j : Z, opt match_ mismatch gap seq1 seq2 (Z.to_nat i) (Z.to_nat j) in
  let '(i, j, a1, a2) := st in
  0 ≤ i ≤ len seq1 ∧ 0 ≤ j ≤ len seq2 ∧
  ∃ al, aligns al (drop (Z.to_nat i) seq1) (drop (Z.to_nat j) seq2) ∧
    a1 = top <$> al ∧ a2 = bottom <$> al ∧
    al_score match_ mismatch gap al + o i j = o (len seq1) (len seq2).

(** Loop states the traceback passes through, starting at the corner. *)
Inductive tb_reach (dp : matrix) (seq1 seq2 : str) (match_ mismatch gap : Z)
  : tb_state → Prop :=
  | tb_reach_start :
      tb_reach dp seq1 seq2 match_ mismatch gap (len seq1, len seq2, [], [])
  | tb_reach_step i j a1 a2 st' :
      tb_reach dp seq1 seq2 match_ mismatch gap (i, j, a1, a2) →
      (0 <? i) || (0 <? j) = true →
      tb_step dp seq1 seq2 match_ mismatch gap (i, j, a1, a2) = Return st' →
      tb_reach dp seq1 seq2 match_ mismatch gap st'.

(** The traceback read as a recursion on the two prefixes, given last
    symbol first; it yields the columns of the alignment last column
    first, preferring the diagonal, then the vertical move. *)
Fixpoint trace_r (match_ mismatch gap : Z) (ra rb : str) {struct ra} : list column :=
  match ra with
  | [] => GapAbove <$> rb
  | a :: ra' =>
      (fix inner (rb : str) : list column :=
         match rb with
         | [] => GapBelow a :: trace_r match_ mismatch gap ra' []
         | b :: rb' =>
             if optr match_ mismatch gap (a :: ra') (b :: rb')
                =? optr match_ mismatch gap ra' rb' + pair_score match_ mismatch a b
             then Paired a b :: trace_r match_ mismatch gap ra' rb'
             else if optr match_ mismatch gap (a :: ra') (b :: rb')
                     =? optr match_ mismatch gap ra' (b :: rb') + gap
             then GapBelow a :: trace_r match_ mismatch gap ra' (b :: rb')
             else GapAbove b :: inner rb'
         end) rb
  end.

Arguments trace_r : simpl never.

(** The whole of [needleman_wunsch] as a function of its inputs. *)
Definition needleman_wunsch_rec (seq1 seq2 : str) (match_ mismatch gap : Z)
  : Z * str * str :=
  let al := reverse (trace_r match_ mismatch gap (reverse seq1) (reverse seq2)) in
  (optr match_ mismatch gap (reverse seq1) (reverse seq2), top <$> al, bottom <$> al).

(** [y] is [x] with gap symbols inserted and nothing else changed. *)
Inductive gap_insertion : str → str → Prop :=
  | gap_insertion_nil : gap_insertion [] []
  | gap_insertion_keep c x y : gap_insertion x y → gap_insertion (c :: x) (c :: y)
  | gap_insertion_gap x y : gap_insertion x y → gap_insertion x (gap_char :: y).

(** Score of two printed rows read column by column: a column holding
    a gap symbol costs [gap], any other column scores as a pair. *)
Fixpoint rows_score (match_ mismatch gap : Z) (row1 row2 : str) : Z :=
  match row1, row2 with
  | x :: row1', y :: row2' =>
      (if Ascii.eqb x gap_char || Ascii.eqb y gap_char then gap
       else pair_score match_ mismatch x y)
      + rows_score match_ mismatch gap row1' row2'
  | _, _ => 0
  end.

Definition sumZ (xs : list Z) : Z := foldr Z.add 0 xs.

(** The value of the recurrence on two whole rows, summed over all
    pairs of rows of a block, earlier row first. *)
Fixpoint pair_total (match_ mismatch gap : Z) (rows : list str) : Z :=
  match rows with
  | [] => 0
  | r :: rest =>
      sumZ ((λ r', optr match_ mismatch gap (reverse r) (reverse r')) <$> rest)
      + pair_total match_ mismatch gap rest
  end.

(** ** The recurrence and alignments *)

Section Recurrence.
Variables match_ mismatch gap : Z.

Local Abbreviation optr := (optr match_ mismatch gap).
Local Abbreviation al_score := (al_score match_ mismatch gap).
Local Abbreviation sc := (pair_score match_ mismatch).

Lemma optr_nil_l rb : optr [] rb = len rb * gap.
Proof. reflexivity. Qed.

Lemma optr_nil_r ra : optr ra [] = len ra * gap.
Proof. destruct ra; reflexivity. Qed.

Lemma optr_cons a ra b rb :
  optr (a :: ra) (b :: rb) =
    Z.max (Z.max (optr ra rb + sc a b) (optr ra (b :: rb) + gap))
          (optr (a :: ra) rb + gap).
Proof. reflexivity. Qed.

Lemma len_cons {A} (x : A) l : len (x :: l) = len l + 1.
Proof. unfold len. simpl. lia. Qed.

Lemma optr_ge_below a ra rb : optr ra rb + gap ≤ optr (a :: ra) rb.
Proof.
  destruct rb as [|b rb].
  - rewrite !optr_nil_r, len_cons. lia.
  - rewrite optr_cons. lia.
Qed.

Lemma optr_ge_above b ra rb : optr ra rb + gap ≤ optr ra (b :: rb).
Proof.
  destruct ra as [|a ra].
  - rewrite !optr_nil_l, len_cons. lia.
  - rewrite optr_cons. lia.
Qed.

(** No alignment beats the recurrence. *)
Lemma al_score_le_optr al : al_score al ≤ optr (residues1 al) (residues2 al).
Proof.
  induction al as [|[a b|a|b] al IH]; simpl al_score; simpl residues1; simpl residues2.
  - reflexivity.
  - rewrite optr_cons. unfold col_score. lia.
  - pose proof (optr_ge_below a (residues1 al) (residues2 al)). lia.
  - pose proof (optr_ge_above b (residues1 al) (residues2 al)). lia.
Qed.

Lemma al_score_gaps_above rb :
  aligns (GapAbove <$> rb) [] rb ∧ al_score (GapAbove <$> rb) = len rb * gap.
Proof.
  induction rb as [|b rb [[H1 H2] H3]]; [done|].
  rewrite fmap_cons, len_cons. unfold aligns. simpl.
  split; [split; [exact H1 | by f_equal] | lia].
Qed.

Lemma al_score_gaps_below ra :
  aligns (GapBelow <$> ra) ra [] ∧ al_score (GapBelow <$> ra) = len ra * gap.
Proof.
  induction ra as [|a ra [[H1 H2] H3]]; [done|].
  rewrite fmap_cons, len_cons. unfold aligns. simpl.
  split; [split; [by f_equal | exact H2] | lia].
Qed.

(** Some alignment reaches the recurrence. *)
Lemma optr_attained ra rb : ∃ al, aligns al ra rb ∧ al_score al = optr ra rb.
Proof.
  revert rb. induction ra as [|a ra IHa]; intros rb.
  - exists (GapAbove <$> rb). apply al_score_gaps_above.
  - induction rb as [|b rb IHb].
    + exists (GapBelow <$> (a :: ra)). rewrite optr_nil_r. apply al_score_gaps_below.
    + rewrite optr_cons.
      destruct (IHa rb) as (al1 & [A1 B1] & S1).
      destruct (IHa (b :: rb)) as (al2 & [A2 B2] & S2).
      destruct IHb as (al3 & [A3 B3] & S3).
      assert (Z.max (Z.max (optr ra rb + sc a b) (optr ra (b :: rb) + gap))
                (optr (a :: ra) rb + gap) = optr ra rb + sc a b
              ∨ Z.max (Z.max (optr ra rb + sc a b) (optr ra (b :: rb) + gap))
                  (optr (a :: ra) rb + gap) = optr ra (b :: rb) + gap
              ∨ Z.max (Z.max (optr ra rb + sc a b) (optr ra (b :: rb) + gap))
                  (optr (a :: ra) rb + gap) = optr (a :: ra) rb + gap)
        as [E|[E|E]] by lia; rewrite E.
      * exists (Paired a b :: al1). unfold aligns. simpl. rewrite A1, B1, S1.
        split; [done | lia].
      * exists (GapBelow a :: al2). unfold aligns. simpl. rewrite A2, B2, S2.
        split; [done | lia].
      * exists (GapAbove b :: al3). unfold aligns. simpl. rewrite A3, B3, S3.
        split; [done | lia].
Qed.

Lemma optr_max ra rb : max_alignment_score match_ mismatch gap ra rb (optr ra rb).
Proof.
  split; [apply optr_attained|].
  intros al [<- <-]. apply al_score_le_optr.
Qed.

Lemma pair_score_sym a b : sc a b = sc b a.
Proof.
  unfold pair_score.
  destruct (Ascii.eqb_spec a b) as [->|Hne].
  - by rewrite Ascii.eqb_refl.
  - destruct (Ascii.eqb_spec b a); congruence.
Qed.

Lemma optr_sym ra rb : optr ra rb = optr rb ra.
Proof.
  revert rb. induction ra as [|a ra IHa]; intros rb.
  - by rewrite optr_nil_l, optr_nil_r.
  - induction rb as [|b rb IHb].
    + by rewrite optr_nil_l, optr_nil_r.
    + rewrite !optr_cons, IHb, !IHa, (pair_score_sym a b). lia.
Qed.

Lemma residues1_app al1 al2 : residues1 (al1 ++ al2) = residues1 al1 ++ residues1 al2.
Proof. induction al1 as [|[]]; simpl; congruence. Qed.

Lemma residues2_app al1 al2 : residues2 (al1 ++ al2) = residues2 al1 ++ residues2 al2.
Proof. induction al1 as [|[]]; simpl; congruence. Qed.

Lemma al_score_app al1 al2 : al_score (al1 ++ al2) = al_score al1 + al_score al2.
Proof. induction al1; simpl; lia. Qed.

Lemma residues1_reverse al : residues1 (reverse al) = reverse (residues1 al).
Proof.
  induction al as [|c al IH]; [done|].
  rewrite reverse_cons, residues1_app, IH.
  destruct c; simpl; rewrite ?reverse_cons, ?app_nil_r; done.
Qed.

Lemma residues2_reverse al : residues2 (reverse al) = reverse (residues2 al).
Proof.
  induction al as [|c al IH]; [done|].
  rewrite reverse_cons, residues2_app, IH.
  destruct c; simpl; rewrite ?reverse_cons, ?app_nil_r; done.
Qed.

Lemma al_score_reverse al : al_score (reverse al) = al_score al.
Proof.
  induction al as [|c al IH]; [done|].
  rewrite reverse_cons, al_score_app, IH. simpl. lia.
Qed.

Lemma aligns_reverse al A B : aligns al A B → aligns (reverse al) (reverse A) (reverse B).
Proof. intros [<- <-]. split; [apply residues1_reverse | apply residues2_reverse]. Qed.

(** The recurrence over reversed inputs is the optimum of the inputs. *)
Lemma optr_reverse_max A B :
  max_alignment_score match_ mismatch gap A B (optr (reverse A) (reverse B)).
Proof.
  destruct (optr_max (reverse A) (reverse B)) as [(al & Hal & Hs) Hub]. split.
  - exists (reverse al). split.
    + apply aligns_reverse in Hal. by rewrite !reverse_involutive in Hal.
    + by rewrite al_score_reverse.
  - intros al' Hal'. rewrite <- al_score_reverse. apply Hub. by apply aligns_reverse.
Qed.

End Recurrence.

(** ** Runtime lemmas *)

Lemma len_nonneg {A} (l : list A) : 0 ≤ len l.
Proof. unfold len. lia. Qed.

Lemma len_nil {A} : len (@nil A) = 0.
Proof. reflexivity. Qed.

Lemma py_index_ok {A} (l : list A) (k : Z) x :
  0 ≤ k → l !! Z.to_nat k = Some x → py_index l k = Return x.
Proof.
  intros Hk Hx. unfold py_index.
  destruct (Z.ltb_spec k 0); [lia|].
  destruct (Z.ltb_spec k 0); [lia|]. by rewrite Hx.
Qed.

Lemma py_index_lt {A} (l : list A) (k : Z) :
  0 ≤ k < len l → ∃ x, l !! Z.to_nat k = Some x ∧ py_index l k = Return x.
Proof.
  intros Hk. destruct (lookup_lt_is_Some_2 l (Z.to_nat k)) as [x Hx].
  - unfold len in Hk. lia.
  - exists x. split; [done|]. apply py_index_ok; [lia|done].
Qed.

Lemma py_store_ok {A} (l : list A) (k : Z) v :
  0 ≤ k < len l → py_store l k v = Return (<[Z.to_nat k := v]> l).
Proof.
  intros Hk. unfold py_store.
  destruct (Z.ltb_spec k 0); [lia|].
  destruct (Z.ltb_spec k 0); [lia|].
  destruct (Z.ltb_spec k (len l)); [done|lia].
Qed.

(** Invariant rule for a [for] loop over [range(a, b)]. *)
Lemma for_each_range {S} (P : Z → S → Prop) (body : Z → S → outcome S) a b s :
  a ≤ b → P a s →
  (∀ k s, a ≤ k < b → P k s → ∃ s', body k s = Return s' ∧ P (k + 1) s') →
  ∃ s', for_each (range a b) body s = Return s' ∧ P b s'.
Proof.
  intros Hab. remember (Z.to_nat (b - a)) as d eqn:Hd. revert a s Hab Hd.
  induction d as [|d IH]; intros a s Hab Hd HP Hbody.
  - assert (a = b) as -> by lia. unfold range. rewrite seqZ_nil by lia. eauto.
  - unfold range. rewrite seqZ_cons by lia. simpl.
    destruct (Hbody a s) as (s' & -> & HP'); [lia|done|]. simpl.
    replace (Z.pred (b - a)) with (b - Z.succ a) by lia.
    apply (IH (Z.succ a)); [lia|lia|by replace (Z.succ a) with (a + 1) by lia|].
    intros k s0 Hk. apply Hbody. lia.
Qed.

(** ** The matrix holds the recurrence *)

Lemma shaped_row dp m n i :
  shaped dp m n → 0 ≤ i ≤ m →
  ∃ row, dp !! Z.to_nat i = Some row ∧ len row = n + 1.
Proof.
  intros [Hlen Hrows] Hi.
  destruct (lookup_lt_is_Some_2 dp (Z.to_nat i)) as [row Hrow].
  - unfold len in Hlen. lia.
  - exists row. split; [done|]. by eapply Forall_lookup_1 in Hrows.
Qed.

Lemma dp_get_cell dp m n i j :
  shaped dp m n → 0 ≤ i ≤ m → 0 ≤ j ≤ n → dp_get dp i j = Return (cell dp i j).
Proof.
  intros Hs Hi Hj. destruct (shaped_row dp m n i Hs Hi) as (row & Hrow & Hlen).
  destruct (py_index_lt row j) as (v & Hv & Hget); [lia|].
  unfold dp_get, cell. rewrite (py_index_ok dp i row) by (done || lia).
  simpl. rewrite Hget, Hrow. simpl. by rewrite Hv.
Qed.

Lemma dp_set_ok dp m n i j v :
  shaped dp m n → 0 ≤ i ≤ m → 0 ≤ j ≤ n →
  ∃ dp', dp_set dp i j v = Return dp' ∧ shaped dp' m n ∧ cell dp' i j = v ∧
    ∀ i' j', 0 ≤ i' → 0 ≤ j' → i' ≠ i ∨ j' ≠ j → cell dp' i' j' = cell dp i' j'.
Proof.
  intros Hs Hi Hj. destruct (shaped_row dp m n i Hs Hi) as (row & Hrow & Hlen).
  destruct Hs as [Hdp Hrows].
  exists (<[Z.to_nat i := <[Z.to_nat j := v]> row]> dp). repeat split.
  - unfold dp_set. rewrite (py_index_ok dp i row) by (done || lia). simpl.
    rewrite py_store_ok by lia. simpl. apply py_store_ok. lia.
  - unfold len. rewrite length_insert. exact Hdp.
  - apply Forall_insert; [done|]. unfold len. rewrite length_insert. exact Hlen.
  - unfold cell. rewrite list_lookup_insert_eq by (unfold len in Hdp; lia). simpl.
    rewrite list_lookup_insert_eq by (unfold len in Hlen; lia). done.
  - intros i' j' Hi' Hj' Hne. unfold cell.
    destruct (decide (i' = i)) as [->|Hii].
    + rewrite list_lookup_insert_eq by (unfold len in Hdp; lia). rewrite Hrow. simpl.
      rewrite list_lookup_insert_ne by lia. done.
    + rewrite list_lookup_insert_ne by lia. done.
Qed.

Section Matrix.
Variables (seq1 seq2 : str) (match_ mismatch gap : Z).

Local Abbreviation m := (len seq1).
Local Abbreviation n := (len seq2).
Local Abbreviation optz i j :=
  (opt match_ mismatch gap seq1 seq2 (Z.to_nat i) (Z.to_nat j)).
Local Abbreviation filled := (filled seq1 seq2 match_ mismatch gap).
Local Abbreviation move_spec := (move_spec seq1 seq2 match_ mismatch gap).
Local Abbreviation tb_inv := (tb_inv seq1 seq2 match_ mismatch gap).

Lemma len_reverse_take {A} (l : list A) (k : Z) :
  0 ≤ k ≤ len l → len (reverse (take (Z.to_nat k) l)) = k.
Proof.
  intros Hk. unfold len in *. rewrite length_reverse, length_take. lia.
Qed.

Lemma opt_row0 j : 0 ≤ j ≤ n → optz 0 j = j * gap.
Proof.
  intros Hj. unfold opt. change (Z.to_nat 0) with 0%nat.
  rewrite take_0, reverse_nil, optr_nil_l.
  by rewrite len_reverse_take.
Qed.

Lemma opt_col0 i : 0 ≤ i ≤ m → optz i 0 = i * gap.
Proof.
  intros Hi. unfold opt. change (Z.to_nat 0) with 0%nat.
  rewrite take_0, reverse_nil, optr_nil_r.
  by rewrite len_reverse_take.
Qed.

Lemma opt_step i j a b :
  1 ≤ i → 1 ≤ j →
  seq1 !! Z.to_nat (i - 1) = Some a → seq2 !! Z.to_nat (j - 1) = Some b →
  optz i j =
    Z.max (Z.max (optz (i - 1) (j - 1) + pair_score match_ mismatch a b)
                 (optz (i - 1) j + gap))
          (optz i (j - 1) + gap).
Proof.
  intros Hi Hj Ha Hb. unfold opt.
  replace (Z.to_nat i) with (S (Z.to_nat (i - 1))) by lia.
  replace (Z.to_nat j) with (S (Z.to_nat (j - 1))) by lia.
  rewrite (take_S_r seq1 _ a Ha), (take_S_r seq2 _ b Hb), !reverse_snoc.
  apply optr_cons.
Qed.

Lemma match_score_ok i j :
  1 ≤ i ≤ m → 1 ≤ j ≤ n →
  ∃ a b, seq1 !! Z.to_nat (i - 1) = Some a ∧ seq2 !! Z.to_nat (j - 1) = Some b ∧
    match_score seq1 seq2 match_ mismatch i j = Return (pair_score match_ mismatch a b).
Proof.
  intros Hi Hj.
  destruct (py_index_lt seq1 (i - 1)) as (a & Ha & Ea); [lia|].
  destruct (py_index_lt seq2 (j - 1)) as (b & Hb & Eb); [lia|].
  exists a, b. repeat split; [done..|].
  unfold match_score. rewrite Ea. simpl. rewrite Eb. done.
Qed.

Lemma shaped_init :
  shaped (replicate (Z.to_nat (m + 1)) (replicate (Z.to_nat (n + 1)) 0)) m n.
Proof.
  pose proof (len_nonneg seq1). pose proof (len_nonneg seq2). split.
  - unfold len at 1. rewrite length_replicate. lia.
  - apply Forall_replicate. unfold len at 1. rewrite length_replicate. lia.
Qed.

Lemma build_dp_filled :
  ∃ dp, build_dp seq1 seq2 match_ mismatch gap = Return dp ∧ filled dp.
Proof.
  pose proof (len_nonneg seq1) as Hm. pose proof (len_nonneg seq2) as Hn.
  unfold build_dp.
  (* first border *)
  destruct (for_each_range
    (λ k dp, shaped dp m n ∧ ∀ i, 0 ≤ i < k → cell dp i 0 = i * gap)
    (λ i dp, dp_set dp i 0 (i * gap)) 0 (m + 1)
    (replicate (Z.to_nat (m + 1)) (replicate (Z.to_nat (n + 1)) 0)))
    as (dp1 & -> & Hs1 & Hc1).
  { lia. }
  { split; [apply shaped_init | intros; lia]. }
  { intros k dp Hk [Hs Hc].
    destruct (dp_set_ok dp m n k 0 (k * gap) Hs) as (dp' & E & Hs' & Hv & Ho); [lia..|].
    exists dp'. split_and!; try done. intros i Hi.
    destruct (decide (i = k)) as [->|]; [done|].
    rewrite Ho by lia. apply Hc. lia. }
  simpl.
  (* second border *)
  destruct (for_each_range
    (λ k dp, shaped dp m n ∧ (∀ i, 0 ≤ i ≤ m → cell dp i 0 = i * gap)
             ∧ ∀ j, 0 ≤ j < k → cell dp 0 j = j * gap)
    (λ j dp, dp_set dp 0 j (j * gap)) 0 (n + 1) dp1)
    as (dp2 & -> & Hs2 & Hc2 & Hr2).
  { lia. }
  { split_and!; try done. { intros; apply Hc1; lia. } intros; lia. }
  { intros k dp Hk (Hs & Hc & Hr).
    destruct (dp_set_ok dp m n 0 k (k * gap) Hs) as (dp' & E & Hs' & Hv & Ho); [lia..|].
    exists dp'. split_and!; try done.
    - intros i Hi. destruct (decide (i = 0 ∧ k = 0)) as [[-> ->]|].
      + rewrite Hv. lia.
      + rewrite Ho by lia. by apply Hc.
    - intros j Hj. destruct (decide (j = k)) as [->|]; [done|].
      rewrite Ho by lia. apply Hr. lia. }
  simpl.
  (* fill *)
  destruct (for_each_range
    (λ i dp, shaped dp m n ∧
       ∀ i' j', 0 ≤ i' ≤ m → 0 ≤ j' ≤ n → i' < i ∨ j' = 0 → cell dp i' j' = optz i' j')
    (λ i dp,
       for_each (range 1 (n + 1)) (λ j dp,
         ms ← match_score seq1 seq2 match_ mismatch i j;
         d ← dp_get dp (i - 1) (j - 1);
         u ← dp_get dp (i - 1) j;
         l ← dp_get dp i (j - 1);
         dp_set dp i j (Z.max (Z.max (d + ms) (u + gap)) (l + gap))) dp)
    1 (m + 1) dp2) as (dp3 & -> & Hs3 & Hc3).
  { lia. }
  { split; [done|]. intros i' j' Hi' Hj' [Hlt| ->].
    - assert (i' = 0) as -> by lia. rewrite opt_row0 by done. apply Hr2. lia.
    - rewrite opt_col0 by done. by apply Hc2. }
  { intros i dp Hi [Hs Hc].
    destruct (for_each_range
      (λ j dp, shaped dp m n ∧
         ∀ i' j', 0 ≤ i' ≤ m → 0 ≤ j' ≤ n →
           i' < i ∨ j' = 0 ∨ (i' = i ∧ j' < j) → cell dp i' j' = optz i' j')
      (λ j dp,
         ms ← match_score seq1 seq2 match_ mismatch i j;
         d ← dp_get dp (i - 1) (j - 1);
         u ← dp_get dp (i - 1) j;
         l ← dp_get dp i (j - 1);
         dp_set dp i j (Z.max (Z.max (d + ms) (u + gap)) (l + gap)))
      1 (n + 1) dp) as (dp' & E & Hs' & Hc').
    { lia. }
    { split; [done|]. intros i' j' Hi' Hj' Hd. apply Hc; [done..|]. lia. }
    { intros j dq Hj [Hsq Hcq].
      destruct (match_score_ok i j) as (a & b & Ha & Hb & ->); [lia..|]. simpl.
      rewrite (dp_get_cell dq m n) by (done || lia). simpl.
      rewrite (dp_get_cell dq m n) by (done || lia). simpl.
      rewrite (dp_get_cell dq m n) by (done || lia). simpl.
      rewrite !Hcq by lia.
      rewrite <- (opt_step i j a b) by (done || lia).
      destruct (dp_set_ok dq m n i j (optz i j) Hsq) as (dq' & Eq & Hsq' & Hv & Ho);
        [lia..|].
      exists dq'. split_and!; try done. intros i' j' Hi' Hj' Hd.
      destruct (decide (i' = i ∧ j' = j)) as [[-> ->]|]; [done|].
      rewrite Ho by lia. apply Hcq; [done..|]. lia. }
    exists dp'. split_and!; try done. intros i' j' Hi' Hj' Hd.
    apply Hc'; [done..|]. lia. }
  exists dp3. split; [done|]. split; [done|].
  intros i j Hi Hj. apply Hc3; [done..|]. lia.
Qed.

(** *** Traceback over a filled matrix *)

Variable dp : matrix.
Hypothesis Hdp : filled dp.

Lemma tb_branch_spec i j :
  0 ≤ i ≤ m → 0 ≤ j ≤ n → 0 < i ∨ 0 < j →
  ∃ mv, tb_branch dp seq1 seq2 match_ mismatch gap i j = Return mv ∧ move_spec mv i j.
Proof.
  intros Hi Hj Hpos. destruct Hdp as [Hs Hc]. unfold tb_branch.
  destruct (Z.ltb_spec 0 i) as [Hi0|Hi0]; destruct (Z.ltb_spec 0 j) as [Hj0|Hj0];
    simpl andb; cbv iota.
  - destruct (match_score_ok i j) as (a & b & Ha & Hb & Hms); [lia..|].
    rewrite !(dp_get_cell dp m n) by (done || lia). simpl.
    rewrite Hms. simpl. rewrite !Hc by lia.
    pose proof (opt_step i j a b ltac:(lia) ltac:(lia) Ha Hb) as Hstep.
    destruct (Z.eqb_spec (optz i j) (optz (i - 1) (j - 1) + pair_score match_ mismatch a b))
      as [E1|E1]; simpl.
    { exists Diagonal. split; [done|]. simpl. eauto 10. }
    destruct (Z.eqb_spec (optz i j) (optz (i - 1) j + gap)) as [E2|E2]; simpl.
    { exists Vertical. split; [done|]. simpl. eauto. }
    exists Horizontal. split; [done|]. simpl. split; [done|]. exists b. split; [done|]. lia.
  - simpl. rewrite !(dp_get_cell dp m n) by (done || lia). simpl.
    rewrite !Hc by lia. assert (j = 0) as -> by lia.
    rewrite !opt_col0 by lia.
    destruct (Z.eqb_spec (i * gap) ((i - 1) * gap + gap)) as [E|E]; [|lia]. simpl.
    destruct (py_index_lt seq1 (i - 1)) as (a & Ha & _); [lia|].
    exists Vertical. split; [done|]. simpl. split; [done|]. exists a. split; [done|].
    rewrite !opt_col0 by lia. lia.
  - simpl. assert (i = 0) as -> by lia.
    destruct (py_index_lt seq2 (j - 1)) as (b & Hb & _); [lia|].
    exists Horizontal. split; [done|]. simpl. split; [done|]. exists b. split; [done|].
    rewrite !opt_row0 by lia. lia.
  - lia.
Qed.

Lemma tb_inv_start : tb_inv (m, n, [], []).
Proof.
  pose proof (len_nonneg seq1). pose proof (len_nonneg seq2).
  split; [lia|]. split; [lia|]. exists []. split_and!; try done.
  split; simpl; symmetry; apply drop_ge; unfold len; lia.
Qed.

Lemma drop_pred {A} (l : list A) (k : Z) x :
  0 < k → l !! Z.to_nat (k - 1) = Some x →
  drop (Z.to_nat (k - 1)) l = x :: drop (Z.to_nat k) l.
Proof.
  intros Hk Hx. rewrite (drop_S l x _ Hx). f_equal. f_equal. lia.
Qed.

Lemma tb_move_inv mv i j a1 a2 :
  tb_inv (i, j, a1, a2) → move_spec mv i j →
  ∃ i' j' a1' a2', tb_move seq1 seq2 mv (i, j, a1, a2) = Return (i', j', a1', a2') ∧
    tb_inv (i', j', a1', a2') ∧ (Z.to_nat (i' + j') < Z.to_nat (i + j))%nat.
Proof.
  intros (Hi & Hj & al & [Hr1 Hr2] & -> & -> & Hsc) Hmv.
  destruct mv; simpl in Hmv.
  - destruct Hmv as (Hi0 & Hj0 & a & b & Ha & Hb & Hopt).
    exists (i - 1), (j - 1), (a :: (top <$> al)), (b :: (bottom <$> al)). split_and!.
    + simpl. rewrite (py_index_ok seq1 (i - 1) a) by (done || lia). simpl.
      rewrite (py_index_ok seq2 (j - 1) b) by (done || lia). done.
    + split; [lia|]. split; [lia|]. exists (Paired a b :: al). split_and!; try done.
      * split; simpl; [rewrite Hr1 | rewrite Hr2]; symmetry; by apply drop_pred.
      * simpl. lia.
    + lia.
  - destruct Hmv as (Hi0 & a & Ha & Hopt).
    exists (i - 1), j, (a :: (top <$> al)), (gap_char :: (bottom <$> al)). split_and!.
    + simpl. rewrite (py_index_ok seq1 (i - 1) a) by (done || lia). done.
    + split; [lia|]. split; [lia|]. exists (GapBelow a :: al). split_and!; try done.
      * split; simpl; [rewrite Hr1; symmetry; by apply drop_pred | done].
      * simpl. lia.
    + lia.
  - destruct Hmv as (Hj0 & b & Hb & Hopt).
    exists i, (j - 1), (gap_char :: (top <$> al)), (b :: (bottom <$> al)). split_and!.
    + simpl. rewrite (py_index_ok seq2 (j - 1) b) by (done || lia). done.
    + split; [lia|]. split; [lia|]. exists (GapAbove b :: al). split_and!; try done.
      * split; simpl; [done | rewrite Hr2; symmetry; by apply drop_pred].
      * simpl. lia.
    + lia.
Qed.

Lemma tb_step_inv i j a1 a2 :
  tb_inv (i, j, a1, a2) → 0 < i ∨ 0 < j →
  ∃ i' j' a1' a2',
    tb_step dp seq1 seq2 match_ mismatch gap (i, j, a1, a2) = Return (i', j', a1', a2') ∧
    tb_inv (i', j', a1', a2') ∧ (Z.to_nat (i' + j') < Z.to_nat (i + j))%nat.
Proof.
  intros Hinv Hpos. pose proof Hinv as (Hi & Hj & _).
  destruct (tb_branch_spec i j Hi Hj Hpos) as (mv & Hbr & Hmv).
  unfold tb_step. rewrite Hbr. simpl. by apply tb_move_inv.
Qed.

Lemma loop_cond_true i j : 0 < i ∨ 0 < j → (0 <? i) || (0 <? j) = true.
Proof. intros. destruct (Z.ltb_spec 0 i); destruct (Z.ltb_spec 0 j); simpl; lia. Qed.

Lemma loop_cond_false i j : 0 ≤ i → 0 ≤ j → (0 <? i) || (0 <? j) = false → i = 0 ∧ j = 0.
Proof. intros ??. destruct (Z.ltb_spec 0 i); destruct (Z.ltb_spec 0 j); simpl; [done..|lia]. Qed.

Lemma traceback_S fuel i j a1 a2 :
  traceback (S fuel) dp seq1 seq2 match_ mismatch gap (i, j, a1, a2) =
    if (0 <? i) || (0 <? j) then
      st' ← tb_step dp seq1 seq2 match_ mismatch gap (i, j, a1, a2);
      traceback fuel dp seq1 seq2 match_ mismatch gap st'
    else Return (i, j, a1, a2).
Proof. reflexivity. Qed.

(** With a budget of at least [i + j] steps the loop runs to [(0, 0)]. *)
Lemma traceback_ok fuel i j a1 a2 :
  tb_inv (i, j, a1, a2) → (Z.to_nat (i + j) ≤ fuel)%nat →
  ∃ a1' a2', traceback fuel dp seq1 seq2 match_ mismatch gap (i, j, a1, a2)
             = Return (0, 0, a1', a2') ∧ tb_inv (0, 0, a1', a2').
Proof.
  revert i j a1 a2. induction fuel as [|fuel IH]; intros i j a1 a2 Hinv Hfuel.
  - pose proof Hinv as (Hi & Hj & _). assert (i = 0 ∧ j = 0) as [-> ->] by lia.
    exists a1, a2. split; [done|done].
  - pose proof Hinv as (Hi & Hj & _).
    destruct (decide (0 < i ∨ 0 < j)) as [Hpos|Hz].
    + rewrite traceback_S, loop_cond_true by done.
      destruct (tb_step_inv i j a1 a2 Hinv Hpos) as (i' & j' & b1 & b2 & -> & Hinv' & Hlt).
      simpl. apply IH; [done|lia].
    + assert (i = 0 ∧ j = 0) as [-> ->] by lia. exists a1, a2. split; [done|done].
Qed.

Lemma tb_reach_inv st : tb_reach dp seq1 seq2 match_ mismatch gap st → tb_inv st.
Proof.
  induction 1 as [|i j a1 a2 st' _ IH Hc Hstep]; [apply tb_inv_start|].
  pose proof IH as (Hi & Hj & _).
  destruct (tb_step_inv i j a1 a2 IH) as (i' & j' & b1 & b2 & E & Hinv & _).
  - destruct (Z.ltb_spec 0 i); destruct (Z.ltb_spec 0 j); simpl in Hc; (lia || done).
  - rewrite E in Hstep. by injection Hstep as <-.
Qed.

(** The final [else] arm is only ever taken with a column left in [seq2]. *)
Lemma horizontal_has_column i j a1 a2 :
  tb_reach dp seq1 seq2 match_ mismatch gap (i, j, a1, a2) →
  (0 <? i) || (0 <? j) = true →
  tb_branch dp seq1 seq2 match_ mismatch gap i j = Return Horizontal →
  0 < j ∧ ∃ b, py_index seq2 (j - 1) = Return b.
Proof.
  intros Hr Hc Hbr. apply tb_reach_inv in Hr as (Hi & Hj & _).
  destruct (tb_branch_spec i j Hi Hj) as (mv & E & Hmv).
  - destruct (Z.ltb_spec 0 i); destruct (Z.ltb_spec 0 j); simpl in Hc; (lia || done).
  - rewrite E in Hbr. injection Hbr as ->. destruct Hmv as (Hj0 & b & Hb & _).
    split; [done|]. exists b. apply py_index_ok; [lia|done].
Qed.

End Matrix.

(** ** Fuel *)

Lemma traceback_mono fuel fuel' dp seq1 seq2 match_ mismatch gap st r :
  (fuel ≤ fuel')%nat →
  traceback fuel dp seq1 seq2 match_ mismatch gap st = Return r →
  traceback fuel' dp seq1 seq2 match_ mismatch gap st = Return r.
Proof.
  revert fuel' st. induction fuel as [|fuel IH]; intros fuel' [[[i j] a1] a2] Hle.
  - simpl. destruct ((0 <? i) || (0 <? j)) eqn:Hc; [done|].
    intros <-. destruct fuel'; simpl; by rewrite Hc.
  - destruct fuel' as [|fuel']; [lia|]. rewrite !traceback_S.
    destruct ((0 <? i) || (0 <? j)); [|done].
    destruct (tb_step dp seq1 seq2 match_ mismatch gap (i, j, a1, a2)); simpl; [|done..].
    apply IH. lia.
Qed.

Lemma needleman_wunsch_mono fuel fuel' seq1 seq2 match_ mismatch gap r :
  (fuel ≤ fuel')%nat →
  needleman_wunsch fuel seq1 seq2 match_ mismatch gap = Return r →
  needleman_wunsch fuel' seq1 seq2 match_ mismatch gap = Return r.
Proof.
  intros Hle. unfold needleman_wunsch.
  destruct (build_dp seq1 seq2 match_ mismatch gap) as [dp| |]; simpl; [|done..].
  destruct (traceback fuel dp seq1 seq2 match_ mismatch gap (len seq1, len seq2, [], []))
    as [st| |] eqn:E; simpl; [|done..].
  by rewrite (traceback_mono fuel fuel' _ _ _ _ _ _ _ st Hle E).
Qed.

(** ** What [needleman_wunsch] returns *)

Lemma opt_full match_ mismatch gap seq1 seq2 :
  opt match_ mismatch gap seq1 seq2 (length seq1) (length seq2) =
  optr match_ mismatch gap (reverse seq1) (reverse seq2).
Proof. unfold opt. by rewrite !take_ge. Qed.

(** With enough budget the call returns the value of the recurrence and
    the two printed rows of an alignment that reaches it. *)
Lemma needleman_wunsch_spec fuel seq1 seq2 match_ mismatch gap :
  (length seq1 + length seq2 ≤ fuel)%nat →
  ∃ al, aligns al seq1 seq2 ∧
    al_score match_ mismatch gap al = optr match_ mismatch gap (reverse seq1) (reverse seq2) ∧
    needleman_wunsch fuel seq1 seq2 match_ mismatch gap =
      Return (optr match_ mismatch gap (reverse seq1) (reverse seq2), top <$> al, bottom <$> al).
Proof.
  intros Hfuel.
  destruct (build_dp_filled seq1 seq2 match_ mismatch gap) as (dp & Hb & Hdp).
  destruct (traceback_ok seq1 seq2 match_ mismatch gap dp Hdp fuel (len seq1) (len seq2) [] [])
    as (a1 & a2 & Htb & Hinv).
  { by apply tb_inv_start. }
  { unfold len. lia. }
  destruct Hinv as (_ & _ & al & Hal & -> & -> & Hsc).
  change (Z.to_nat 0) with 0%nat in *. rewrite !drop_0 in Hal.
  unfold len in Hsc. rewrite !Nat2Z.id, opt_full in Hsc.
  unfold opt in Hsc. rewrite !take_0, reverse_nil, optr_nil_l, (@len_nil ascii) in Hsc.
  exists al. split; [done|]. split; [lia|].
  unfold needleman_wunsch. rewrite Hb. simpl. rewrite Htb. simpl.
  pose proof (len_nonneg seq1). pose proof (len_nonneg seq2).
  destruct Hdp as [Hs Hc].
  rewrite (dp_get_cell dp (len seq1) (len seq2)) by (done || lia). simpl.
  rewrite Hc by lia. unfold len. by rewrite !Nat2Z.id, opt_full.
Qed.

(** ** Printed rows of an alignment *)

Lemma rows_same_length (al : list column) : length (top <$> al) = length (bottom <$> al).
Proof. by rewrite !length_fmap. Qed.

Lemma remove_gaps_top al :
  gap_free (residues1 al) → remove_gaps (top <$> al) = residues1 al.
Proof.
  unfold gap_free, remove_gaps. induction al as [|[a b|a|b] al IH]; simpl; intros Hg.
  - done.
  - rewrite not_elem_of_cons in Hg. destruct Hg as [Hne Hg].
    rewrite filter_cons_True by done. f_equal. by apply IH.
  - rewrite not_elem_of_cons in Hg. destruct Hg as [Hne Hg].
    rewrite filter_cons_True by done. f_equal. by apply IH.
  - rewrite filter_cons_False by (intros H; by apply H). by apply IH.
Qed.

Lemma remove_gaps_bottom al :
  gap_free (residues2 al) → remove_gaps (bottom <$> al) = residues2 al.
Proof.
  unfold gap_free, remove_gaps. induction al as [|[a b|a|b] al IH]; simpl; intros Hg.
  - done.
  - rewrite not_elem_of_cons in Hg. destruct Hg as [Hne Hg].
    rewrite filter_cons_True by done. f_equal. by apply IH.
  - rewrite filter_cons_False by (intros H; by apply H). by apply IH.
  - rewrite not_elem_of_cons in Hg. destruct Hg as [Hne Hg].
    rewrite filter_cons_True by done. f_equal. by apply IH.
Qed.

Lemma no_double_gap al k :
  gap_free (residues1 al) → gap_free (residues2 al) →
  ¬ ((top <$> al) !! k = Some gap_char ∧ (bottom <$> al) !! k = Some gap_char).
Proof.
  unfold gap_free. revert k. induction al as [|c al IH]; intros k H1 H2 [Ht Hb]; [done|].
  destruct k as [|k].
  - simpl in Ht, Hb. injection Ht as Ht. injection Hb as Hb.
    destruct c; simpl in *; subst; set_solver.
  - apply (IH k).
    + destruct c; simpl in H1; set_solver.
    + destruct c; simpl in H2; set_solver.
    + done.
Qed.

Lemma rows_against_empty2 al :
  residues2 al = [] →
  top <$> al = residues1 al ∧ bottom <$> al = replicate (length (residues1 al)) gap_char.
Proof.
  induction al as [|[a b|a|b] al IH]; simpl; intros H; try done.
  destruct (IH H) as [E1 E2]. split; f_equal; [exact E1 | exact E2].
Qed.

Lemma rows_against_empty1 al :
  residues1 al = [] →
  bottom <$> al = residues2 al ∧ top <$> al = replicate (length (residues2 al)) gap_char.
Proof.
  induction al as [|[a b|a|b] al IH]; simpl; intros H; try done.
  destruct (IH H) as [E1 E2]. split; f_equal; [exact E1 | exact E2].
Qed.

Lemma swap_col_rows al :
  residues1 (swap_col <$> al) = residues2 al ∧
  residues2 (swap_col <$> al) = residues1 al ∧
  top <$> (swap_col <$> al) = bottom <$> al ∧
  bottom <$> (swap_col <$> al) = top <$> al.
Proof.
  induction al as [|[a b|a|b] al (H1 & H2 & H3 & H4)]; [done|..];
    rewrite !fmap_cons; simpl; rewrite ?H1, ?H2, ?H3, ?H4; done.
Qed.

Lemma swap_col_score match_ mismatch gap al :
  al_score match_ mismatch gap (swap_col <$> al) = al_score match_ mismatch gap al.
Proof.
  induction al as [|[a b|a|b] al IH]; [done|..]; rewrite fmap_cons; simpl; rewrite IH;
    [by rewrite pair_score_sym|done..].
Qed.

(** ** Gap propagation *)

Lemma insert_gap_nat (k : nat) row :
  insert_gap (Z.of_nat k) row = take k row ++ gap_char :: drop k row.
Proof.
  unfold insert_gap, py_slice_to, py_slice_from, py_clamp, len.
  destruct (Z.ltb_spec (Z.of_nat k) 0); [lia|].
  destruct (decide (k ≤ length row)%nat).
  - by replace (Z.to_nat (Z.min (Z.max (Z.of_nat k) 0) (Z.of_nat (length row)))) with k by lia.
  - replace (Z.to_nat (Z.min (Z.max (Z.of_nat k) 0) (Z.of_nat (length row))))
      with (length row) by lia.
    by rewrite !take_ge, !drop_ge by lia.
Qed.

Lemma insert_gap_cons (k : nat) x row :
  insert_gap (Z.of_nat (S k)) (x :: row) = x :: insert_gap (Z.of_nat k) row.
Proof. by rewrite !insert_gap_nat. Qed.

Lemma insert_gap_ge (k : nat) row :
  (length row ≤ k)%nat → insert_gap (Z.of_nat k) row = row ++ [gap_char].
Proof. intros. by rewrite insert_gap_nat, take_ge, drop_ge by lia. Qed.

Lemma weave_length aligned row :
  length (weave aligned row) = (length row + count_gaps aligned)%nat.
Proof.
  unfold count_gaps. revert row. induction aligned as [|c aligned IH]; intros row; simpl.
  - lia.
  - destruct (Ascii.eqb_spec c gap_char) as [->|Hne].
    + rewrite filter_cons_True by done. simpl. rewrite IH. lia.
    + rewrite filter_cons_False by done. destruct row; simpl; rewrite IH; simpl; lia.
Qed.

Lemma count_gaps_le aligned : (count_gaps aligned ≤ length aligned)%nat.
Proof. apply length_filter. Qed.

Lemma weave_snoc pre c row :
  weave (pre ++ [c]) row =
    if Ascii.eqb c gap_char then insert_gap (len pre) (weave pre row) else weave pre row.
Proof.
  unfold len. revert row. induction pre as [|p pre IH]; intros row.
  - simpl app. simpl weave. simpl length.
    destruct (Ascii.eqb c gap_char); [by rewrite (insert_gap_nat 0)|]. by destruct row.
  - simpl app. simpl weave. simpl length.
    destruct (Ascii.eqb p gap_char).
    + rewrite IH. destruct (Ascii.eqb c gap_char); [|done]. by rewrite insert_gap_cons.
    + destruct row as [|x row].
      * rewrite IH. destruct (Ascii.eqb c gap_char); [|done].
        pose proof (weave_length pre []) as Hl. pose proof (count_gaps_le pre).
        rewrite !insert_gap_ge; [done|simpl in Hl; lia..].
      * rewrite IH. destruct (Ascii.eqb c gap_char); [|done]. by rewrite insert_gap_cons.
Qed.

(** Where the aligned row holds a gap, so does a row that was long
    enough to reach that index. *)
Lemma weave_gap_at aligned row i :
  (length aligned ≤ length row + count_gaps aligned)%nat →
  aligned !! i = Some gap_char → weave aligned row !! i = Some gap_char.
Proof.
  unfold count_gaps. revert row i.
  induction aligned as [|c aligned IH]; intros row i Hlen Hi; [done|]. simpl.
  destruct (Ascii.eqb_spec c gap_char) as [->|Hne].
  - rewrite filter_cons_True in Hlen by done. destruct i as [|i]; [done|].
    simpl in *. apply IH; [lia|done].
  - rewrite filter_cons_False in Hlen by done.
    destruct i as [|i]; [simpl in Hi; congruence|].
    destruct row as [|x row].
    + pose proof (length_filter (λ c, c = gap_char) aligned). simpl in Hlen. lia.
    + simpl in *. apply IH; [lia|done].
Qed.

(** The inner loop of [propagate_gaps_to_msa]. *)
Lemma propagate_inner (f : str → str) (seq_index : Z) (rows : list str) :
  for_each (range 0 (len rows)) (λ j msa,
    if negb (j =? seq_index) then
      row ← py_index msa j; py_store msa j (f row)
    else Return msa) rows = Return (others f seq_index rows).
Proof.
  destruct (for_each_range
    (λ k st, st = imap (λ j row,
       if bool_decide (Z.of_nat j < k ∧ Z.of_nat j ≠ seq_index) then f row else row) rows)
    (λ j msa, if negb (j =? seq_index) then
                row ← py_index msa j; py_store msa j (f row)
              else Return msa) 0 (len rows) rows) as (st & -> & ->).
  - apply len_nonneg.
  - apply list_eq. intros j. rewrite list_lookup_imap.
    destruct (rows !! j); simpl; [|done]. by rewrite bool_decide_eq_false_2 by lia.
  - intros k st Hk ->.
    destruct (lookup_lt_is_Some_2 rows (Z.to_nat k)) as [row Hrow]; [unfold len in Hk; lia|].
    destruct (Z.eqb_spec k seq_index) as [->|Hne]; simpl.
    + eexists. split; [done|]. apply list_eq. intros j. rewrite !list_lookup_imap.
      destruct (rows !! j); simpl; [|done]. f_equal.
      destruct (decide (Z.of_nat j < seq_index)).
      * by rewrite !bool_decide_eq_true_2 by lia.
      * by rewrite !bool_decide_eq_false_2 by lia.
    + rewrite (py_index_ok _ k row); [|lia|].
      2:{ rewrite list_lookup_imap, Hrow. simpl. by rewrite bool_decide_eq_false_2 by lia. }
      simpl. rewrite py_store_ok.
      2:{ unfold len in *. rewrite length_imap. lia. }
      eexists. split; [done|]. apply list_eq. intros j.
      destruct (decide (j = Z.to_nat k)) as [->|Hj].
      * rewrite list_lookup_insert_eq by (rewrite length_imap; unfold len in Hk; lia).
        rewrite list_lookup_imap, Hrow. simpl. by rewrite bool_decide_eq_true_2 by lia.
      * rewrite list_lookup_insert_ne by done. rewrite !list_lookup_imap.
        destruct (rows !! j); simpl; [|done]. f_equal.
        destruct (decide (Z.of_nat j < k)).
        -- destruct (decide (Z.of_nat j = seq_index)).
           ++ by rewrite !bool_decide_eq_false_2 by lia.
           ++ by rewrite !bool_decide_eq_true_2 by lia.
        -- by rewrite !bool_decide_eq_false_2 by lia.
  - f_equal. apply list_eq. intros j. unfold others. rewrite !list_lookup_imap.
    destruct (rows !! j) eqn:E; simpl; [|done]. f_equal.
    apply lookup_lt_Some in E. unfold len.
    destruct (decide (Z.of_nat j = seq_index)).
    + by rewrite bool_decide_eq_false_2, bool_decide_eq_true_2 by lia.
    + by rewrite bool_decide_eq_true_2, bool_decide_eq_false_2 by lia.
Qed.

Lemma others_length f seq_index rows : length (others f seq_index rows) = length rows.
Proof. apply length_imap. Qed.

Lemma others_compose f g seq_index rows :
  others g seq_index (others f seq_index rows) = others (g ∘ f) seq_index rows.
Proof.
  apply list_eq. intros j. unfold others. rewrite !list_lookup_imap.
  destruct (rows !! j); simpl; [|done]. f_equal. by case_bool_decide.
Qed.

Lemma others_ext f g seq_index rows :
  (∀ row, f row = g row) → others f seq_index rows = others g seq_index rows.
Proof.
  intros Hfg. apply list_eq. intros j. unfold others. rewrite !list_lookup_imap.
  destruct (rows !! j); simpl; [|done]. f_equal. by case_bool_decide.
Qed.

(** The outer loop, started after a prefix [pre] of the aligned row. *)
Lemma propagate_outer (seq_index : Z) (rows : list str) (pre rest : str) :
  for_each (zip (seqZ (len pre) (len rest)) rest) (λ '(i, char) msa,
    if Ascii.eqb char gap_char then
      for_each (range 0 (len msa)) (λ j msa,
        if negb (j =? seq_index) then
          row ← py_index msa j;
          py_store msa j (py_slice_to row i ++ gap_char :: py_slice_from row i)
        else Return msa) msa
    else Return msa) (others (weave pre) seq_index rows)
  = Return (others (weave (pre ++ rest)) seq_index rows).
Proof.
  revert pre. induction rest as [|c rest IH]; intros pre.
  - by rewrite app_nil_r.
  - rewrite len_cons, seqZ_cons by (pose proof (len_nonneg rest); lia).
    replace (Z.pred (len rest + 1)) with (len rest) by lia.
    replace (Z.succ (len pre)) with (len (pre ++ [c]))
      by (unfold len; rewrite length_app; simpl; lia).
    simpl zip. simpl for_each.
    replace (pre ++ c :: rest) with ((pre ++ [c]) ++ rest) by (by rewrite <- app_assoc).
    destruct (Ascii.eqb c gap_char) eqn:Ec.
    + rewrite (propagate_inner (insert_gap (len pre)) seq_index). simpl.
      rewrite others_compose.
      rewrite (others_ext _ (weave (pre ++ [c]))); [apply IH|].
      intros row. simpl. by rewrite weave_snoc, Ec.
    + simpl. rewrite (others_ext (weave pre) (weave (pre ++ [c]))); [apply IH|].
      intros row. by rewrite weave_snoc, Ec.
Qed.

Lemma others_weave_nil seq_index rows : others (weave []) seq_index rows = rows.
Proof.
  apply list_eq. intros j. unfold others. rewrite list_lookup_imap.
  destruct (rows !! j); simpl; [|done]. by case_bool_decide.
Qed.

Lemma propagate_gaps_to_msa_ok msa aligned_seq seq_index :
  0 ≤ seq_index < len msa →
  propagate_gaps_to_msa msa aligned_seq seq_index =
    Return (<[Z.to_nat seq_index := aligned_seq]> (others (weave aligned_seq) seq_index msa)).
Proof.
  intros Hidx. unfold propagate_gaps_to_msa, enumerate.
  pose proof (propagate_outer seq_index msa [] aligned_seq) as H.
  rewrite others_weave_nil in H. change (len (@nil ascii)) with 0 in H.
  simpl app in H. rewrite H. simpl.
  apply py_store_ok. unfold len in *. by rewrite others_length.
Qed.

(** ** The progressive driver *)

Lemma bind_Return_inv {A B} (x : outcome A) (f : A → outcome B) r :
  x ≫= f = Return r → ∃ a, x = Return a ∧ f a = Return r.
Proof. destruct x as [a| |]; simpl; [eauto|done..]. Qed.

Lemma for_each_mono {X S} (body body' : X → S → outcome S) xs s r :
  (∀ x s r, body x s = Return r → body' x s = Return r) →
  for_each xs body s = Return r → for_each xs body' s = Return r.
Proof.
  intros Hb. revert s. induction xs as [|x xs IH]; intros s; simpl; [done|].
  intros (s' & Hs' & Hr)%bind_Return_inv. rewrite (Hb _ _ _ Hs'). simpl. by apply IH.
Qed.

Lemma msa_step_mono fuel fuel' match_ mismatch gap seq block r :
  (fuel ≤ fuel')%nat →
  msa_step fuel match_ mismatch gap seq block = Return r →
  msa_step fuel' match_ mismatch gap seq block = Return r.
Proof.
  intros Hle. unfold msa_step.
  intros (row0 & -> & H)%bind_Return_inv. simpl.
  apply bind_Return_inv in H as ([[sc a1] a2] & Hnw & H).
  by rewrite (needleman_wunsch_mono fuel fuel' _ _ _ _ _ _ Hle Hnw).
Qed.

Lemma msa_loop_mono fuel fuel' sequences match_ mismatch gap r :
  (fuel ≤ fuel')%nat →
  msa_loop fuel sequences match_ mismatch gap = Return r →
  msa_loop fuel' sequences match_ mismatch gap = Return r.
Proof.
  intros Hle. unfold msa_loop. intros (s0 & -> & H)%bind_Return_inv. simpl.
  revert H. apply for_each_mono. intros seq block b. by apply msa_step_mono.
Qed.

Lemma pair_scores_mono fuel fuel' rows match_ mismatch gap r :
  (fuel ≤ fuel')%nat →
  pair_scores fuel rows match_ mismatch gap = Return r →
  pair_scores fuel' rows match_ mismatch gap = Return r.
Proof.
  intros Hle. unfold pair_scores. apply for_each_mono. intros i acc v.
  apply for_each_mono. intros j acc' v'.
  intros (ri & -> & H)%bind_Return_inv. simpl.
  apply bind_Return_inv in H as (rj & -> & H). simpl.
  apply bind_Return_inv in H as ([[sc a1] a2] & Hnw & H).
  by rewrite (needleman_wunsch_mono fuel fuel' _ _ _ _ _ _ Hle Hnw).
Qed.

Lemma msa_mono fuel fuel' sequences match_ mismatch gap r :
  (fuel ≤ fuel')%nat →
  msa fuel sequences match_ mismatch gap = Return r →
  msa fuel' sequences match_ mismatch gap = Return r.
Proof.
  intros Hle. unfold msa. intros (block & Hloop & H)%bind_Return_inv.
  rewrite (msa_loop_mono fuel fuel' _ _ _ _ _ Hle Hloop). simpl.
  apply bind_Return_inv in H as (rows & -> & H). simpl.
  apply bind_Return_inv in H as (v & Hv & H).
  by rewrite (pair_scores_mono fuel fuel' _ _ _ _ _ Hle Hv).
Qed.

Lemma same_length_intro (rows : list str) (L : nat) :
  (∀ r, r ∈ rows → length r = L) → same_length rows.
Proof. intros H r1 r2 H1 H2. by rewrite (H r1), (H r2). Qed.

Lemma count_gaps_gap_free x : gap_free x → count_gaps x = 0%nat.
Proof.
  unfold gap_free, count_gaps. induction x as [|c x IH]; [done|].
  rewrite not_elem_of_cons. intros [Hne Hx].
  rewrite filter_cons_False by congruence. by apply IH.
Qed.

(** A printed top row is as much longer than the symbols it consumes
    as it holds more gap symbols. *)
Lemma top_length_gaps al :
  (length (top <$> al) + count_gaps (residues1 al) =
   length (residues1 al) + count_gaps (top <$> al))%nat.
Proof.
  unfold count_gaps. induction al as [|[a b|a|b] al IH]; [done|..];
    rewrite fmap_cons; simpl top; simpl residues1.
  - destruct (decide (a = gap_char)).
    + rewrite !filter_cons_True by done. simpl. lia.
    + rewrite !filter_cons_False by done. simpl. lia.
  - destruct (decide (a = gap_char)).
    + rewrite !filter_cons_True by done. simpl. lia.
    + rewrite !filter_cons_False by done. simpl. lia.
  - rewrite filter_cons_True by done. simpl. lia.
Qed.

(** One round of the progressive loop. *)
Lemma msa_step_ok fuel match_ mismatch gap seq block row0 :
  block !! 0%nat = Some row0 → (length row0 + length seq ≤ fuel)%nat →
  ∃ al, aligns al row0 seq ∧
    msa_step fuel match_ mismatch gap seq block =
      Return (<[0%nat := top <$> al]> (others (weave (top <$> al)) 0 block)
              ++ [bottom <$> al]).
Proof.
  intros Hrow0 Hfuel.
  destruct (needleman_wunsch_spec fuel row0 seq match_ mismatch gap Hfuel)
    as (al & Hal & _ & Hnw).
  exists al. split; [done|]. unfold msa_step.
  rewrite (py_index_ok block 0 row0) by done. simpl. rewrite Hnw. simpl.
  rewrite propagate_gaps_to_msa_ok; [done|].
  apply lookup_lt_Some in Hrow0. unfold len. lia.
Qed.

Lemma msa_step_same_length fuel match_ mismatch gap seq block row0 :
  block !! 0%nat = Some row0 → same_length block →
  gap_free row0 ∨ length block = 1%nat →
  (length row0 + length seq ≤ fuel)%nat →
  ∃ block', msa_step fuel match_ mismatch gap seq block = Return block' ∧
    length block' = S (length block) ∧ same_length block'.
Proof.
  intros Hrow0 Hsame Hcase Hfuel.
  destruct (msa_step_ok fuel match_ mismatch gap seq block row0 Hrow0 Hfuel)
    as (al & [H1 H2] & ->).
  eexists. split; [done|]. split.
  { rewrite length_app, length_insert, others_length. simpl. lia. }
  apply (same_length_intro _ (length (top <$> al))). intros r Hr.
  apply elem_of_app in Hr as [Hr|Hr].
  - apply list_elem_of_lookup in Hr as [j Hj].
    destruct j as [|j].
    + rewrite list_lookup_insert_eq in Hj; [by injection Hj as <-|].
      rewrite others_length. by apply lookup_lt_Some in Hrow0.
    + rewrite list_lookup_insert_ne in Hj by done.
      unfold others in Hj. rewrite list_lookup_imap in Hj.
      destruct (block !! S j) as [row|] eqn:Hrow; [|done]. simpl in Hj.
      injection Hj as <-.
      destruct Hcase as [Hfree|Hone].
      * rewrite weave_length.
        rewrite (Hsame row row0) by (eapply list_elem_of_lookup_2; eauto).
        pose proof (top_length_gaps al) as Hl.
        rewrite H1, (count_gaps_gap_free row0 Hfree) in Hl. lia.
      * apply lookup_lt_Some in Hrow. lia.
  - apply list_elem_of_singleton in Hr as ->. symmetry. apply rows_same_length.
Qed.

(** The loop over the remaining sequences returns once the budget is
    large enough, and adds one row per sequence. *)
Lemma msa_rounds_return match_ mismatch gap seqs block :
  block ≠ [] →
  ∃ fuel block', for_each seqs (msa_step fuel match_ mismatch gap) block = Return block' ∧
    length block' = (length block + length seqs)%nat.
Proof.
  revert block. induction seqs as [|seq seqs IH]; intros block Hne.
  - exists 0%nat, block. split; [done|]. simpl. lia.
  - destruct block as [|row0 block]; [done|].
    destruct (msa_step_ok (length row0 + length seq) match_ mismatch gap seq
                (row0 :: block) row0) as (al & _ & Hstep); [done|lia|].
    set (block1 := <[0%nat := top <$> al]> (others (weave (top <$> al)) 0 (row0 :: block))
                   ++ [bottom <$> al]) in *.
    assert (length block1 = S (length (row0 :: block))) as Hlen1.
    { unfold block1. rewrite length_app, length_insert, others_length. simpl. lia. }
    destruct (IH block1) as (fuel1 & block' & Hrest & Hlen).
    { intros E. rewrite E in Hlen1. done. }
    exists (max (length row0 + length seq) fuel1), block'. split.
    + simpl. rewrite (msa_step_mono _ _ _ _ _ _ _ _ (Nat.le_max_l _ _) Hstep). simpl.
      revert Hrest. apply for_each_mono. intros x b r. apply msa_step_mono. lia.
    + rewrite Hlen, Hlen1. simpl. lia.
Qed.

Lemma foldl_max_ge (xs : list Z) (x : Z) :
  x ≤ foldl Z.max x xs ∧ ∀ y, y ∈ xs → y ≤ foldl Z.max x xs.
Proof.
  revert x. induction xs as [|z xs IH]; intros x; simpl.
  - split; [lia|]. intros y Hy. by apply elem_of_nil in Hy.
  - destruct (IH (Z.max x z)) as [H1 H2]. split; [lia|].
    intros y [->|Hy]%elem_of_cons; [lia|by apply H2].
Qed.

Lemma pad_rows_ok (rows : list str) :
  rows ≠ [] →
  ∃ w rows', pad_rows rows = Return rows' ∧ length rows' = length rows ∧
    ∀ r, r ∈ rows' → length r = w.
Proof.
  intros Hne. destruct rows as [|r0 rows]; [done|].
  unfold pad_rows. rewrite fmap_cons. simpl py_max. simpl.
  set (w := foldl Z.max (len r0) (len <$> rows)).
  exists (Z.to_nat w), (ljust r0 w gap_char :: ((λ seq, ljust seq w gap_char) <$> rows)).
  split; [done|]. split; [simpl; by rewrite length_fmap|].
  destruct (foldl_max_ge (len <$> rows) (len r0)) as [H0 Hrest]. fold w in H0, Hrest.
  assert (∀ r, len r ≤ w → length (ljust r w gap_char) = Z.to_nat w) as Hl.
  { intros r Hr. unfold ljust. rewrite length_app, length_replicate. unfold len in *. lia. }
  intros r [->|Hr]%elem_of_cons; [by apply Hl|].
  apply list_elem_of_fmap in Hr as (r' & -> & Hr'). apply Hl, Hrest.
  by apply list_elem_of_fmap_2.
Qed.

Lemma pair_scores_return fuel (rows : list str) match_ mismatch gap (L : nat) :
  (∀ r, r ∈ rows → length r = L) → (L + L ≤ fuel)%nat →
  ∃ v, pair_scores fuel rows match_ mismatch gap = Return v.
Proof.
  intros Hrows Hfuel. unfold pair_scores.
  destruct (for_each_range (λ _ _, True)
    (λ i final_score,
       for_each (range (i + 1) (len rows)) (λ j final_score,
         ri ← py_index rows i;
         rj ← py_index rows j;
         '(score, _, _) ← needleman_wunsch fuel ri rj match_ mismatch gap;
         Return (final_score + score)) final_score)
    0 (len rows) 0) as (v & Hv & _); [apply len_nonneg|done| |by exists v].
  intros i acc Hi _.
  destruct (for_each_range (λ _ _, True)
    (λ j final_score,
       ri ← py_index rows i;
       rj ← py_index rows j;
       '(score, _, _) ← needleman_wunsch fuel ri rj match_ mismatch gap;
       Return (final_score + score))
    (i + 1) (len rows) acc) as (v & Hv & _); [lia|done| |by exists v].
  intros j acc' Hj _.
  destruct (py_index_lt rows i) as (ri & Hri & ->); [lia|].
  destruct (py_index_lt rows j) as (rj & Hrj & ->); [lia|]. simpl.
  apply list_elem_of_lookup_2 in Hri, Hrj.
  destruct (needleman_wunsch_spec fuel ri rj match_ mismatch gap) as (al & _ & _ & ->).
  { rewrite (Hrows ri), (Hrows rj) by done. lia. }
  simpl. eauto.
Qed.

(** On a non-empty input [msa] returns once the budget is large enough;
    the block has one row per input and all rows are equally long. *)
Lemma msa_returns sequences match_ mismatch gap :
  sequences ≠ [] →
  ∃ fuel score block, msa fuel sequences match_ mismatch gap = Return (score, block) ∧
    length block = length sequences ∧ same_length block.
Proof.
  intros Hne. destruct sequences as [|s0 seqs]; [done|].
  destruct (msa_rounds_return match_ mismatch gap seqs [s0]) as (f1 & block & Hloop & Hlen);
    [done|].
  destruct (pad_rows_ok block) as (w & rows & Hpad & Hlen' & Hw).
  { intros E. rewrite E in Hlen. simpl in Hlen. lia. }
  destruct (pair_scores_return (max f1 (w + w)) rows match_ mismatch gap w Hw)
    as (v & Hv); [lia|].
  exists (max f1 (w + w)), v, rows. split_and!.
  - unfold msa.
    assert (msa_loop (max f1 (w + w)) (s0 :: seqs) match_ mismatch gap = Return block) as ->.
    { unfold msa_loop. simpl. rewrite drop_0.
      revert Hloop. apply for_each_mono. intros x b r. apply msa_step_mono. lia. }
    simpl. rewrite Hpad. simpl. by rewrite Hv.
  - rewrite Hlen', Hlen. simpl. lia.
  - by apply (same_length_intro _ w).
Qed.

(** ** Properties of [needleman_wunsch] *)

(** C1: the matrix built by [needleman_wunsch] holds at [dp[i][j]] the
    maximum score over all global alignments of the first [i] symbols
    of [seq1] against the first [j] symbols of [seq2], for any integer
    scoring triple; the returned score is [dp[m][n]], the maximum over
    all global alignments of the two inputs. *)
Theorem needleman_wunsch_optimal seq1 seq2 match_ mismatch gap fuel (i j : nat) :
  (i ≤ length seq1)%nat → (j ≤ length seq2)%nat →
  (length seq1 + length seq2 ≤ fuel)%nat →
  ∃ dp v score a1 a2,
    build_dp seq1 seq2 match_ mismatch gap = Return dp ∧
    dp_get dp (Z.of_nat i) (Z.of_nat j) = Return v ∧
    max_alignment_score match_ mismatch gap (take i seq1) (take j seq2) v ∧
    needleman_wunsch fuel seq1 seq2 match_ mismatch gap = Return (score, a1, a2) ∧
    dp_get dp (len seq1) (len seq2) = Return score ∧
    max_alignment_score match_ mismatch gap seq1 seq2 score.
Proof.
  intros Hi Hj Hfuel.
  destruct (build_dp_filled seq1 seq2 match_ mismatch gap) as (dp & Hb & Hs & Hc).
  destruct (needleman_wunsch_spec fuel seq1 seq2 match_ mismatch gap Hfuel)
    as (al & Hal & Hsc & Hnw).
  exists dp, (opt match_ mismatch gap seq1 seq2 i j),
    (optr match_ mismatch gap (reverse seq1) (reverse seq2)), (top <$> al), (bottom <$> al).
  pose proof (len_nonneg seq1). pose proof (len_nonneg seq2).
  split_and!; try done.
  - rewrite (dp_get_cell dp (len seq1) (len seq2)) by (done || unfold len; lia).
    rewrite Hc by (unfold len; lia). by rewrite !Nat2Z.id.
  - apply optr_reverse_max.
  - rewrite (dp_get_cell dp (len seq1) (len seq2)) by (done || lia).
    rewrite Hc by lia. unfold len. by rewrite !Nat2Z.id, opt_full.
  - apply optr_reverse_max.
Qed.

(** C5, as amended: aligning ["ACGT"] against ["AGT"] with match = 1,
    mismatch = -1, gap = -2 returns score 1 (three matches and one gap)
    with the alignment ["ACGT"] / ["A-GT"]. *)
Theorem acgt_agt_alignment fuel :
  (4 ≤ fuel)%nat →
  needleman_wunsch fuel (py_str "ACGT") (py_str "AGT") 1 (-1) (-2) =
    Return (1, py_str "ACGT", py_str "A-GT").
Proof.
  intros Hfuel. apply (needleman_wunsch_mono 4); [done|]. vm_compute. reflexivity.
Qed.

(** C6: aligning [A] against the empty sequence returns [len(A) * gap],
    [A] itself and a row of [len(A)] gap symbols; with the arguments
    exchanged the all-gap row is the first output. *)
Theorem align_against_empty A match_ mismatch gap fuel :
  (length A ≤ fuel)%nat →
  needleman_wunsch fuel A [] match_ mismatch gap =
    Return (len A * gap, A, replicate (length A) gap_char) ∧
  needleman_wunsch fuel [] A match_ mismatch gap =
    Return (len A * gap, replicate (length A) gap_char, A).
Proof.
  intros Hfuel. split.
  - destruct (needleman_wunsch_spec fuel A [] match_ mismatch gap) as (al & [H1 H2] & _ & ->).
    { simpl. lia. }
    destruct (rows_against_empty2 al H2) as [-> ->]. rewrite H1.
    rewrite reverse_nil, optr_nil_r. unfold len. by rewrite length_reverse.
  - destruct (needleman_wunsch_spec fuel [] A match_ mismatch gap) as (al & [H1 H2] & _ & ->).
    { simpl. lia. }
    destruct (rows_against_empty1 al H1) as [-> ->]. rewrite H2.
    rewrite reverse_nil, optr_nil_l. unfold len. by rewrite length_reverse.
Qed.

(** C7: the two aligned outputs have equal length; when [A] holds no
    gap symbol, deleting the gap symbols from the first output gives
    back [A], and likewise the second output gives back a gap-free [B]. *)
Theorem alignment_round_trip A B match_ mismatch gap fuel :
  (length A + length B ≤ fuel)%nat →
  ∃ score a1 a2,
    needleman_wunsch fuel A B match_ mismatch gap = Return (score, a1, a2) ∧
    length a1 = length a2 ∧
    (gap_free A → remove_gaps a1 = A) ∧
    (gap_free B → remove_gaps a2 = B).
Proof.
  intros Hfuel.
  destruct (needleman_wunsch_spec fuel A B match_ mismatch gap Hfuel)
    as (al & [H1 H2] & _ & Hnw).
  exists (optr match_ mismatch gap (reverse A) (reverse B)), (top <$> al), (bottom <$> al).
  split_and!; [done|apply rows_same_length|..].
  - intros HA. rewrite <- H1 in HA |- *. by apply remove_gaps_top.
  - intros HB. rewrite <- H2 in HB |- *. by apply remove_gaps_bottom.
Qed.

(** C8, as amended: the two calls return the same score, and the rows
    of [needleman_wunsch(A, B)] read in the other order print a global
    alignment of [B] against [A] that reaches that score; they need not
    be the rows [needleman_wunsch(B, A)] returns. *)
Theorem score_symmetric A B match_ mismatch gap fuel :
  (length A + length B ≤ fuel)%nat →
  ∃ score a1 a2 b1 b2,
    needleman_wunsch fuel A B match_ mismatch gap = Return (score, a1, a2) ∧
    needleman_wunsch fuel B A match_ mismatch gap = Return (score, b1, b2) ∧
    ∃ al, aligns al B A ∧ top <$> al = a2 ∧ bottom <$> al = a1 ∧
          al_score match_ mismatch gap al = score.
Proof.
  intros Hfuel.
  destruct (needleman_wunsch_spec fuel A B match_ mismatch gap Hfuel)
    as (al & [H1 H2] & Hsc & Hab).
  destruct (needleman_wunsch_spec fuel B A match_ mismatch gap ltac:(lia))
    as (al' & _ & _ & Hba).
  exists (optr match_ mismatch gap (reverse A) (reverse B)),
    (top <$> al), (bottom <$> al), (top <$> al'), (bottom <$> al').
  split; [done|]. split; [by rewrite (optr_sym _ _ _ (reverse A))|].
  destruct (swap_col_rows al) as (S1 & S2 & S3 & S4).
  exists (swap_col <$> al). split_and!; try done.
  - split; congruence.
  - by rewrite swap_col_score.
Qed.

(** C9: [needleman_wunsch] always returns: building the matrix raises
    nothing, the traceback loop leaves with [i = 0] and [j = 0], every
    cursor it passes through is non-negative, and whenever the final
    [else] arm is taken [j > 0] holds and [seq2[j-1]] is in range. *)
Theorem needleman_wunsch_total seq1 seq2 match_ mismatch gap fuel :
  (length seq1 + length seq2 ≤ fuel)%nat →
  ∃ dp score a1 a2,
    build_dp seq1 seq2 match_ mismatch gap = Return dp ∧
    traceback fuel dp seq1 seq2 match_ mismatch gap (len seq1, len seq2, [], []) =
      Return (0, 0, a1, a2) ∧
    needleman_wunsch fuel seq1 seq2 match_ mismatch gap = Return (score, a1, a2) ∧
    ∀ i j b1 b2,
      tb_reach dp seq1 seq2 match_ mismatch gap (i, j, b1, b2) →
      (0 ≤ i ∧ 0 ≤ j) ∧
      ((0 <? i) || (0 <? j) = true →
       tb_branch dp seq1 seq2 match_ mismatch gap i j = Return Horizontal →
       0 < j ∧ ∃ b, py_index seq2 (j - 1) = Return b).
Proof.
  intros Hfuel.
  destruct (build_dp_filled seq1 seq2 match_ mismatch gap) as (dp & Hb & Hdp).
  destruct (traceback_ok seq1 seq2 match_ mismatch gap dp Hdp fuel (len seq1) (len seq2) [] [])
    as (a1 & a2 & Htb & _).
  { by apply tb_inv_start. }
  { unfold len. lia. }
  pose proof (len_nonneg seq1). pose proof (len_nonneg seq2).
  exists dp, (cell dp (len seq1) (len seq2)), a1, a2. split_and!; try done.
  - unfold needleman_wunsch. rewrite Hb. simpl. rewrite Htb. simpl.
    destruct Hdp as [Hs _]. by rewrite (dp_get_cell dp (len seq1) (len seq2)) by (done || lia).
  - intros i j b1 b2 Hr. split.
    + apply (tb_reach_inv seq1 seq2 match_ mismatch gap dp Hdp) in Hr as (Hi & Hj & _). lia.
    + by apply (horizontal_has_column seq1 seq2 match_ mismatch gap dp Hdp i j b1 b2).
Qed.

(** C10: for inputs free of the gap symbol, no position of the aligned
    output pair holds the gap symbol in both rows. *)
Theorem no_all_gap_column A B match_ mismatch gap fuel :
  gap_free A → gap_free B → (length A + length B ≤ fuel)%nat →
  ∃ score a1 a2,
    needleman_wunsch fuel A B match_ mismatch gap = Return (score, a1, a2) ∧
    ∀ k : nat, ¬ (a1 !! k = Some gap_char ∧ a2 !! k = Some gap_char).
Proof.
  intros HA HB Hfuel.
  destruct (needleman_wunsch_spec fuel A B match_ mismatch gap Hfuel)
    as (al & [H1 H2] & _ & Hnw).
  exists (optr match_ mismatch gap (reverse A) (reverse B)), (top <$> al), (bottom <$> al).
  split; [done|]. intros k. apply no_double_gap; congruence.
Qed.

(** ** Properties of [msa] and [propagate_gaps_to_msa] *)

(** C2, as amended: [msa] has no check on the number of sequences. On
    the empty list it raises [IndexError] (from [sequences[0]]); on a
    one-element list it raises nothing and returns score 0 with that
    sequence as the only row. *)
Theorem msa_short_input fuel match_ mismatch gap :
  msa fuel [] match_ mismatch gap = Raise IndexError ∧
  ∀ seq, msa fuel [seq] match_ mismatch gap = Return (0, [seq]).
Proof.
  split; [reflexivity|]. intros seq. unfold msa, msa_loop. simpl.
  unfold pad_rows. simpl. unfold ljust. rewrite Z.sub_diag. simpl. rewrite app_nil_r.
  reflexivity.
Qed.

(** C3, as amended: a round of the progressive loop leaves all rows
    equally long when they were before and the current row 0 holds no
    gap symbol (or is the only row, as in the first round); whatever
    the rounds did, the block [msa] returns after the final padding has
    one row per input sequence and all its rows are equally long. *)
Theorem msa_rows_same_length :
  (∀ fuel match_ mismatch gap seq block row0,
     block !! 0%nat = Some row0 → same_length block →
     gap_free row0 ∨ length block = 1%nat →
     (length row0 + length seq ≤ fuel)%nat →
     ∃ block', msa_step fuel match_ mismatch gap seq block = Return block' ∧
       length block' = S (length block) ∧ same_length block') ∧
  (∀ sequences match_ mismatch gap,
     (1 ≤ length sequences)%nat →
     ∃ fuel0 score block,
       (∀ fuel, (fuel0 ≤ fuel)%nat →
          msa fuel sequences match_ mismatch gap = Return (score, block)) ∧
       length block = length sequences ∧ same_length block).
Proof.
  split.
  - intros. by eapply msa_step_same_length.
  - intros sequences match_ mismatch gap Hn.
    destruct (msa_returns sequences match_ mismatch gap)
      as (fuel0 & score & block & Hmsa & Hlen & Hsame).
    { intros ->. simpl in Hn. lia. }
    exists fuel0, score, block. split_and!; try done.
    intros fuel Hfuel. by apply (msa_mono fuel0).
Qed.

(** What the loop of [propagate_gaps_to_msa] computes: the row at
    [seq_index] is replaced by the aligned row, and every other row
    gets one gap per gap symbol of the aligned row, whether or not row
    0 held that gap before the round. *)
Lemma propagate_gaps_every_gap msa aligned_seq seq_index :
  0 ≤ seq_index < len msa →
  ∃ msa', propagate_gaps_to_msa msa aligned_seq seq_index = Return msa' ∧
    length msa' = length msa ∧
    msa' !! Z.to_nat seq_index = Some aligned_seq ∧
    ∀ (j : nat) row, j ≠ Z.to_nat seq_index → msa !! j = Some row →
      msa' !! j = Some (weave aligned_seq row) ∧
      length (weave aligned_seq row) = (length row + count_gaps aligned_seq)%nat ∧
      ((length aligned_seq ≤ length row + count_gaps aligned_seq)%nat →
       ∀ i, aligned_seq !! i = Some gap_char → weave aligned_seq row !! i = Some gap_char).
Proof.
  intros Hidx. eexists. split; [by apply propagate_gaps_to_msa_ok|].
  assert (Z.to_nat seq_index < length msa)%nat as Hlt by (unfold len in Hidx; lia).
  split_and!.
  - by rewrite length_insert, others_length.
  - apply list_lookup_insert_eq. by rewrite others_length.
  - intros j row Hj Hrow. split_and!.
    + rewrite list_lookup_insert_ne by done. unfold others.
      rewrite list_lookup_imap, Hrow. simpl. by rewrite bool_decide_eq_false_2 by lia.
    + apply weave_length.
    + intros Hlen i. by apply weave_gap_at.
Qed.

(** ** Concrete runs *)

(** C1 at ["ACGT"], ["AGT"], cell (2, 1), default scoring. *)
Lemma needleman_wunsch_optimal_witness :
  ∃ dp v score a1 a2,
    build_dp (py_str "ACGT") (py_str "AGT") 1 (-1) (-2) = Return dp ∧
    dp_get dp (Z.of_nat 2) (Z.of_nat 1) = Return v ∧
    max_alignment_score 1 (-1) (-2) (take 2 (py_str "ACGT")) (take 1 (py_str "AGT")) v ∧
    needleman_wunsch 7 (py_str "ACGT") (py_str "AGT") 1 (-1) (-2) = Return (score, a1, a2) ∧
    dp_get dp (len (py_str "ACGT")) (len (py_str "AGT")) = Return score ∧
    max_alignment_score 1 (-1) (-2) (py_str "ACGT") (py_str "AGT") score.
Proof.
  apply (needleman_wunsch_optimal (py_str "ACGT") (py_str "AGT") 1 (-1) (-2) 7 2 1);
    simpl; lia.
Defined.

(** C2 as stated fails: a one-element list is aligned without any
    exception, and the empty list raises [IndexError]. *)
Lemma msa_singleton_returns :
  msa 0 [py_str "A"] 1 (-1) (-2) = Return (0, [py_str "A"]) ∧
  msa 0 [] 1 (-1) (-2) = Raise IndexError.
Proof. split; vm_compute; reflexivity. Qed.

Lemma same_length_singleton (r : str) : same_length [r].
Proof. intros r1 r2 ->%list_elem_of_singleton ->%list_elem_of_singleton. done. Defined.

(** C3 at the first round of ["A"], ["AA"] and at the whole run on
    ["A"], ["AA"], ["A"]. *)
Lemma msa_rows_same_length_witness :
  (∃ block', msa_step 3 1 (-1) (-2) (py_str "AA") [py_str "A"] = Return block' ∧
     length block' = 2%nat ∧ same_length block') ∧
  (∃ fuel0 score block,
     (∀ fuel, (fuel0 ≤ fuel)%nat →
        msa fuel [py_str "A"; py_str "AA"; py_str "A"] 1 (-1) (-2) = Return (score, block)) ∧
     length block = 3%nat ∧ same_length block).
Proof.
  split.
  - apply (proj1 msa_rows_same_length 3%nat 1 (-1) (-2) (py_str "AA") [py_str "A"]
             (py_str "A")).
    + reflexivity.
    + apply same_length_singleton.
    + right. reflexivity.
    + simpl. lia.
  - apply (proj2 msa_rows_same_length [py_str "A"; py_str "AA"; py_str "A"] 1 (-1) (-2)).
    simpl. lia.
Defined.

(** C3 as stated fails: after the second round on ["A"], ["AA"], ["A"]
    the middle row is one symbol longer than the other two. *)
Lemma msa_rows_differ_after_round :
  ∃ block,
    (∀ fuel, (3 ≤ fuel)%nat →
       msa_loop fuel [py_str "A"; py_str "AA"; py_str "A"] 1 (-1) (-2) = Return block) ∧
    ¬ same_length block.
Proof.
  exists [py_str "-A"; py_str "-AA"; py_str "-A"]. split.
  - intros fuel Hfuel. apply (msa_loop_mono 3); [done|]. vm_compute. reflexivity.
  - intros H. specialize (H (py_str "-A") (py_str "-AA")).
    assert (length (py_str "-A") = length (py_str "-AA")) as E; [|simpl in E; lia].
    apply H; set_solver.
Qed.

(** C4: propagation is meant to insert a gap into the other rows only
    where the aligned row 0 holds a gap newly introduced in this round,
    so that each row gains exactly the number of new gaps; the code
    does not keep to that. On ["A"], ["AA"], ["A"] the first round
    leaves the block ["-A"], ["AA"]; in the second round aligning row
    0 with ["A"] returns ["-A"] again, so no gap is new, yet
    [propagate_gaps_to_msa] inserts the old gap into row 1, which
    becomes ["-AA"] and no longer lines up with row 0. *)
Theorem propagate_reinserts_old_gap :
  msa_loop 3 [py_str "A"; py_str "AA"] 1 (-1) (-2) = Return [py_str "-A"; py_str "AA"] ∧
  needleman_wunsch 3 (py_str "-A") (py_str "A") 1 (-1) (-2) =
    Return (-1, py_str "-A", py_str "-A") ∧
  propagate_gaps_to_msa [py_str "-A"; py_str "AA"] (py_str "-A") 0 =
    Return [py_str "-A"; py_str "-AA"] ∧
  length (py_str "-AA") ≠ length (py_str "AA").
Proof.
  split_and!; try (vm_compute; reflexivity).
  simpl. lia.
Qed.

(** C5 at the smallest sufficient budget. *)
Lemma acgt_agt_alignment_witness :
  needleman_wunsch 4 (py_str "ACGT") (py_str "AGT") 1 (-1) (-2) =
    Return (1, py_str "ACGT", py_str "A-GT").
Proof. apply (acgt_agt_alignment 4). lia. Defined.

(** C5 as stated fails: no run of this call returns score 0. *)
Lemma acgt_agt_score_not_0 :
  ¬ ∃ fuel a1 a2,
      needleman_wunsch fuel (py_str "ACGT") (py_str "AGT") 1 (-1) (-2) = Return (0, a1, a2).
Proof.
  intros (fuel & a1 & a2 & H).
  destruct (decide (4 ≤ fuel)%nat) as [Hle|Hlt].
  - rewrite (needleman_wunsch_mono 4 fuel _ _ _ _ _ (1, py_str "ACGT", py_str "A-GT") Hle) in H.
    + discriminate.
    + vm_compute. reflexivity.
  - do 4 (destruct fuel as [|fuel]; [vm_compute in H; discriminate|]). lia.
Qed.

(** C6 at ["ACG"]. *)
Lemma align_against_empty_witness :
  needleman_wunsch 3 (py_str "ACG") [] 1 (-1) (-2) =
    Return (len (py_str "ACG") * -2, py_str "ACG", replicate (length (py_str "ACG")) gap_char) ∧
  needleman_wunsch 3 [] (py_str "ACG") 1 (-1) (-2) =
    Return (len (py_str "ACG") * -2, replicate (length (py_str "ACG")) gap_char, py_str "ACG").
Proof. apply (align_against_empty (py_str "ACG") 1 (-1) (-2) 3). simpl. lia. Defined.

Lemma gap_free_acgt : gap_free (py_str "ACGT").
Proof. unfold gap_free. intros H. repeat (apply elem_of_cons in H as [H|H]; [discriminate|]).
  by apply elem_of_nil in H. Defined.

Lemma gap_free_agt : gap_free (py_str "AGT").
Proof. unfold gap_free. intros H. repeat (apply elem_of_cons in H as [H|H]; [discriminate|]).
  by apply elem_of_nil in H. Defined.

(** C7 at ["ACGT"], ["AGT"]. *)
Lemma alignment_round_trip_witness :
  ∃ score a1 a2,
    needleman_wunsch 7 (py_str "ACGT") (py_str "AGT") 1 (-1) (-2) = Return (score, a1, a2) ∧
    length a1 = length a2 ∧
    remove_gaps a1 = py_str "ACGT" ∧ remove_gaps a2 = py_str "AGT".
Proof.
  destruct (alignment_round_trip (py_str "ACGT") (py_str "AGT") 1 (-1) (-2) 7)
    as (score & a1 & a2 & Hnw & Hlen & H1 & H2).
  - simpl. lia.
  - exists score, a1, a2.
    exact (conj Hnw (conj Hlen (conj (H1 gap_free_acgt) (H2 gap_free_agt)))).
Defined.

(** C8 at ["ACA"], ["CAC"]. *)
Lemma score_symmetric_witness :
  ∃ score a1 a2 b1 b2,
    needleman_wunsch 6 (py_str "ACA") (py_str "CAC") 1 (-1) (-2) = Return (score, a1, a2) ∧
    needleman_wunsch 6 (py_str "CAC") (py_str "ACA") 1 (-1) (-2) = Return (score, b1, b2) ∧
    ∃ al, aligns al (py_str "CAC") (py_str "ACA") ∧ top <$> al = a2 ∧ bottom <$> al = a1 ∧
          al_score 1 (-1) (-2) al = score.
Proof. apply (score_symmetric (py_str "ACA") (py_str "CAC") 1 (-1) (-2) 6). simpl. lia. Defined.

(** C8 as stated fails: with the default scoring ["ACA"] against
    ["CAC"] returns ["-ACA"] / ["CAC-"] while ["CAC"] against ["ACA"]
    returns ["-CAC"] / ["ACA-"], which is not the first pair with its
    rows exchanged. *)
Lemma rows_not_swapped :
  ¬ ∀ A B match_ mismatch gap fuel score a1 a2,
      (length A + length B ≤ fuel)%nat →
      needleman_wunsch fuel A B match_ mismatch gap = Return (score, a1, a2) →
      needleman_wunsch fuel B A match_ mismatch gap = Return (score, a2, a1).
Proof.
  intros H.
  specialize (H (py_str "ACA") (py_str "CAC") 1 (-1) (-2) 6%nat (-2)
                (py_str "-ACA") (py_str "CAC-")).
  assert (needleman_wunsch 6 (py_str "CAC") (py_str "ACA") 1 (-1) (-2) =
          Return (-2, py_str "-CAC", py_str "ACA-")) as E by (vm_compute; reflexivity).
  rewrite E in H. discriminate H.
  - simpl. lia.
  - vm_compute. reflexivity.
Qed.

(** C9 at ["ACGT"], ["AGT"]. *)
Lemma needleman_wunsch_total_witness :
  ∃ dp score a1 a2,
    build_dp (py_str "ACGT") (py_str "AGT") 1 (-1) (-2) = Return dp ∧
    traceback 7 dp (py_str "ACGT") (py_str "AGT") 1 (-1) (-2)
      (len (py_str "ACGT"), len (py_str "AGT"), [], []) = Return (0, 0, a1, a2) ∧
    needleman_wunsch 7 (py_str "ACGT") (py_str "AGT") 1 (-1) (-2) = Return (score, a1, a2) ∧
    ∀ i j b1 b2,
      tb_reach dp (py_str "ACGT") (py_str "AGT") 1 (-1) (-2) (i, j, b1, b2) →
      (0 ≤ i ∧ 0 ≤ j) ∧
      ((0 <? i) || (0 <? j) = true →
       tb_branch dp (py_str "ACGT") (py_str "AGT") 1 (-1) (-2) i j = Return Horizontal →
       0 < j ∧ ∃ b, py_index (py_str "AGT") (j - 1) = Return b).
Proof.
  apply (needleman_wunsch_total (py_str "ACGT") (py_str "AGT") 1 (-1) (-2) 7). simpl. lia.
Defined.

(** C10 at ["ACGT"], ["AGT"]. *)
Lemma no_all_gap_column_witness :
  ∃ score a1 a2,
    needleman_wunsch 7 (py_str "ACGT") (py_str "AGT") 1 (-1) (-2) = Return (score, a1, a2) ∧
    ∀ k : nat, ¬ (a1 !! k = Some gap_char ∧ a2 !! k = Some gap_char).
Proof.
  apply (no_all_gap_column (py_str "ACGT") (py_str "AGT") 1 (-1) (-2) 7).
  - apply gap_free_acgt.
  - apply gap_free_agt.
  - simpl. lia.
Defined.

(** ** The traceback as a recursion *)

Lemma trace_r_nil_l match_ mismatch gap rb :
  trace_r match_ mismatch gap [] rb = GapAbove <$> rb.
Proof. reflexivity. Qed.

Lemma trace_r_nil_r match_ mismatch gap a ra :
  trace_r match_ mismatch gap (a :: ra) [] = GapBelow a :: trace_r match_ mismatch gap ra [].
Proof. reflexivity. Qed.

Lemma trace_r_cons match_ mismatch gap a ra b rb :
  trace_r match_ mismatch gap (a :: ra) (b :: rb) =
    if optr match_ mismatch gap (a :: ra) (b :: rb)
       =? optr match_ mismatch gap ra rb + pair_score match_ mismatch a b
    then Paired a b :: trace_r match_ mismatch gap ra rb
    else if optr match_ mismatch gap (a :: ra) (b :: rb)
            =? optr match_ mismatch gap ra (b :: rb) + gap
    then GapBelow a :: trace_r match_ mismatch gap ra (b :: rb)
    else GapAbove b :: trace_r match_ mismatch gap (a :: ra) rb.
Proof. reflexivity. Qed.

Lemma reverse_take_pred {A} (l : list A) (k : Z) x :
  0 < k → l !! Z.to_nat (k - 1) = Some x →
  reverse (take (Z.to_nat k) l) = x :: reverse (take (Z.to_nat (k - 1)) l).
Proof.
  intros Hk Hx. replace (Z.to_nat k) with (S (Z.to_nat (k - 1))) by lia.
  by rewrite (take_S_r l _ x Hx), reverse_snoc.
Qed.

Section Exact.
Variables (seq1 seq2 : str) (match_ mismatch gap : Z) (dp : matrix).
Hypothesis Hdp : filled seq1 seq2 match_ mismatch gap dp.

Local Abbreviation prefix1 i := (reverse (take (Z.to_nat i) seq1)).
Local Abbreviation prefix2 j := (reverse (take (Z.to_nat j) seq2)).
Local Abbreviation trace i j := (trace_r match_ mismatch gap (prefix1 i) (prefix2 j)).

(** One turn of the loop emits the head column of the recursion. *)
Lemma tb_step_exact i j a1 a2 :
  0 ≤ i ≤ len seq1 → 0 ≤ j ≤ len seq2 → 0 < i ∨ 0 < j →
  ∃ i' j' c,
    tb_step dp seq1 seq2 match_ mismatch gap (i, j, a1, a2)
      = Return (i', j', top c :: a1, bottom c :: a2) ∧
    trace i j = c :: trace i' j' ∧
    0 ≤ i' ≤ len seq1 ∧ 0 ≤ j' ≤ len seq2 ∧ (Z.to_nat (i' + j') < Z.to_nat (i + j))%nat.
Proof.
  intros Hi Hj Hpos. destruct Hdp as [Hs Hc]. unfold tb_step, tb_branch.
  destruct (Z.ltb_spec 0 i) as [Hi0|Hi0]; destruct (Z.ltb_spec 0 j) as [Hj0|Hj0];
    simpl andb; cbv iota.
  - destruct (match_score_ok seq1 seq2 match_ mismatch i j) as (a & b & Ha & Hb & Hms);
      [lia..|].
    rewrite !(dp_get_cell dp (len seq1) (len seq2)) by (done || lia). simpl.
    rewrite Hms. simpl. rewrite !Hc by lia. unfold opt.
    rewrite (reverse_take_pred seq1 i a Hi0 Ha), (reverse_take_pred seq2 j b Hj0 Hb).
    rewrite trace_r_cons.
    destruct (optr match_ mismatch gap (a :: prefix1 (i - 1)) (b :: prefix2 (j - 1))
              =? optr match_ mismatch gap (prefix1 (i - 1)) (prefix2 (j - 1))
                 + pair_score match_ mismatch a b); simpl.
    { exists (i - 1), (j - 1), (Paired a b).
      rewrite (py_index_ok seq1 (i - 1) a), (py_index_ok seq2 (j - 1) b) by (done || lia).
      simpl. split_and!; (done || lia). }
    rewrite <- (reverse_take_pred seq2 j b Hj0 Hb).
    destruct (optr match_ mismatch gap (a :: prefix1 (i - 1)) (prefix2 j)
              =? optr match_ mismatch gap (prefix1 (i - 1)) (prefix2 j) + gap); simpl.
    { exists (i - 1), j, (GapBelow a).
      rewrite (py_index_ok seq1 (i - 1) a) by (done || lia).
      simpl. split_and!; (done || lia). }
    exists i, (j - 1), (GapAbove b).
    rewrite (py_index_ok seq2 (j - 1) b) by (done || lia). simpl.
    rewrite (reverse_take_pred seq1 i a Hi0 Ha). split_and!; (done || lia).
  - assert (j = 0) as -> by lia. simpl.
    rewrite !(dp_get_cell dp (len seq1) (len seq2)) by (done || lia). simpl.
    rewrite !Hc by lia. rewrite !(opt_col0 seq1 seq2) by lia.
    destruct (Z.eqb_spec (i * gap) ((i - 1) * gap + gap)) as [_|E]; [|lia]. simpl.
    destruct (py_index_lt seq1 (i - 1)) as (a & Ha & ->); [lia|]. simpl.
    exists (i - 1), 0, (GapBelow a). split; [done|].
    rewrite (reverse_take_pred seq1 i a Hi0 Ha).
    change (Z.to_nat 0) with 0%nat. rewrite take_0, reverse_nil, trace_r_nil_r.
    split_and!; (done || lia).
  - assert (i = 0) as -> by lia. simpl.
    destruct (py_index_lt seq2 (j - 1)) as (b & Hb & ->); [lia|]. simpl.
    exists 0, (j - 1), (GapAbove b). split; [done|].
    rewrite (reverse_take_pred seq2 j b Hj0 Hb).
    change (Z.to_nat 0) with 0%nat. rewrite take_0, reverse_nil, !trace_r_nil_l, fmap_cons.
    split_and!; (done || lia).
  - lia.
Qed.

(** From any cursor the loop prepends the printed rows of the recursion. *)
Lemma traceback_exact fuel i j a1 a2 :
  0 ≤ i ≤ len seq1 → 0 ≤ j ≤ len seq2 → (Z.to_nat (i + j) ≤ fuel)%nat →
  traceback fuel dp seq1 seq2 match_ mismatch gap (i, j, a1, a2) =
    Return (0, 0, (top <$> reverse (trace i j)) ++ a1, (bottom <$> reverse (trace i j)) ++ a2).
Proof.
  revert i j a1 a2. induction fuel as [|fuel IH]; intros i j a1 a2 Hi Hj Hfuel.
  - assert (i = 0 ∧ j = 0) as [-> ->] by lia. reflexivity.
  - destruct (decide (0 < i ∨ 0 < j)) as [Hpos|Hz].
    + rewrite traceback_S, loop_cond_true by done.
      destruct (tb_step_exact i j a1 a2 Hi Hj Hpos)
        as (i' & j' & c & -> & Htr & Hi' & Hj' & Hlt).
      simpl. rewrite IH by (done || lia). rewrite Htr, reverse_cons, !fmap_app.
      simpl. by rewrite <- !app_assoc.
    + assert (i = 0 ∧ j = 0) as [-> ->] by lia. reflexivity.
Qed.

End Exact.

Lemma needleman_wunsch_exact fuel seq1 seq2 match_ mismatch gap :
  (length seq1 + length seq2 ≤ fuel)%nat →
  needleman_wunsch fuel seq1 seq2 match_ mismatch gap =
    Return (needleman_wunsch_rec seq1 seq2 match_ mismatch gap).
Proof.
  intros Hfuel.
  destruct (build_dp_filled seq1 seq2 match_ mismatch gap) as (dp & Hb & Hdp).
  pose proof (len_nonneg seq1). pose proof (len_nonneg seq2).
  unfold needleman_wunsch. rewrite Hb. simpl.
  rewrite (traceback_exact seq1 seq2 match_ mismatch gap dp Hdp)
    by (lia || unfold len; lia).
  simpl. destruct Hdp as [Hs Hc].
  rewrite (dp_get_cell dp (len seq1) (len seq2)) by (done || lia). simpl.
  rewrite Hc by lia. unfold needleman_wunsch_rec, opt, len.
  by rewrite !Nat2Z.id, !take_ge, !app_nil_r by lia.
Qed.

(** ** Gap insertion *)

Lemma gap_insertion_refl x : gap_insertion x x.
Proof. induction x; by constructor. Qed.

Lemma gap_insertion_trans x y z :
  gap_insertion x y → gap_insertion y z → gap_insertion x z.
Proof.
  intros Hxy Hyz. revert x Hxy. induction Hyz as [|c y z _ IH|y z _ IH]; intros x Hxy.
  - done.
  - inversion Hxy; subst.
    + constructor. by apply IH.
    + apply gap_insertion_gap. by apply IH.
  - apply gap_insertion_gap. by apply IH.
Qed.

Lemma gap_insertion_pad x y (k : nat) :
  gap_insertion x y → gap_insertion x (y ++ replicate k gap_char).
Proof.
  induction 1 as [|c x y _ IH|x y _ IH]; simpl.
  - induction k; simpl; by constructor.
  - by constructor.
  - by constructor.
Qed.

Lemma gap_insertion_remove_gaps x y :
  gap_insertion x y → remove_gaps y = remove_gaps x.
Proof.
  unfold remove_gaps. induction 1 as [|c x y _ IH|x y _ IH]; [done|..].
  - destruct (decide (c = gap_char)).
    + by rewrite !filter_cons_False by (intros H; by apply H).
    + rewrite !filter_cons_True by done. by f_equal.
  - by rewrite filter_cons_False by (intros H; by apply H).
Qed.

Lemma gap_insertion_length x y : gap_insertion x y → (length x ≤ length y)%nat.
Proof. induction 1; simpl; lia. Qed.

Lemma gap_insertion_top al : gap_insertion (residues1 al) (top <$> al).
Proof. induction al as [|[a b|a|b] al IH]; rewrite ?fmap_cons; simpl; by constructor. Qed.

Lemma gap_insertion_bottom al : gap_insertion (residues2 al) (bottom <$> al).
Proof. induction al as [|[a b|a|b] al IH]; rewrite ?fmap_cons; simpl; by constructor. Qed.

Lemma gap_insertion_weave aligned row : gap_insertion row (weave aligned row).
Proof.
  revert row. induction aligned as [|c aligned IH]; intros row; simpl.
  - apply gap_insertion_refl.
  - destruct (Ascii.eqb c gap_char).
    + by constructor.
    + destruct row; [done|]. by constructor.
Qed.

(** ** Lengths and scores of printed rows *)

Lemma al_length_bounds al :
  (length (residues1 al) ≤ length al ∧ length (residues2 al) ≤ length al ∧
   length al ≤ length (residues1 al) + length (residues2 al))%nat.
Proof. induction al as [|[a b|a|b] al IH]; simpl; lia. Qed.

Lemma rows_score_al match_ mismatch gap al :
  gap_free (residues1 al) → gap_free (residues2 al) →
  rows_score match_ mismatch gap (top <$> al) (bottom <$> al) = al_score match_ mismatch gap al.
Proof.
  unfold gap_free. induction al as [|[a b|a|b] al IH]; intros H1 H2; [done|..];
    rewrite !fmap_cons; simpl in *.
  - apply not_elem_of_cons in H1 as [Ha H1]. apply not_elem_of_cons in H2 as [Hb H2].
    destruct (Ascii.eqb_spec a gap_char); [done|].
    destruct (Ascii.eqb_spec b gap_char); [done|]. simpl. by rewrite IH.
  - apply not_elem_of_cons in H1 as [Ha H1].
    rewrite orb_true_r. by rewrite IH.
  - apply not_elem_of_cons in H2 as [Hb H2]. by rewrite IH.
Qed.

Lemma pair_score_refl match_ mismatch a : pair_score match_ mismatch a a = match_.
Proof. unfold pair_score. by rewrite Ascii.eqb_refl. Qed.

Lemma pair_score_le match_ mismatch a b :
  mismatch ≤ match_ → pair_score match_ mismatch a b ≤ match_.
Proof. unfold pair_score. destruct (Ascii.eqb a b); lia. Qed.

(** With [mismatch ≤ match] and [2 * gap ≤ match] no alignment scores
    more than [match] per two symbols consumed. *)
Lemma al_score_upper match_ mismatch gap al :
  mismatch ≤ match_ → 2 * gap ≤ match_ →
  2 * al_score match_ mismatch gap al ≤ (len (residues1 al) + len (residues2 al)) * match_.
Proof.
  intros Hm Hg. induction al as [|[a b|a|b] al IH]; simpl; rewrite ?len_cons.
  - unfold len. simpl. lia.
  - pose proof (pair_score_le match_ mismatch a b Hm). lia.
  - lia.
  - lia.
Qed.

Lemma al_score_all_gaps match_ mismatch gap A B :
  aligns ((GapBelow <$> A) ++ (GapAbove <$> B)) A B ∧
  al_score match_ mismatch gap ((GapBelow <$> A) ++ (GapAbove <$> B)) = (len A + len B) * gap.
Proof.
  destruct (al_score_gaps_below match_ mismatch gap A) as [[A1 A2] A3].
  destruct (al_score_gaps_above match_ mismatch gap B) as [[B1 B2] B3].
  split.
  - split; [rewrite residues1_app | rewrite residues2_app].
    + by rewrite A1, B1, app_nil_r.
    + by rewrite A2, B2.
  - rewrite al_score_app, A3, B3. lia.
Qed.

Lemma al_score_diagonal match_ mismatch gap A :
  aligns ((λ a, Paired a a) <$> A) A A ∧
  al_score match_ mismatch gap ((λ a, Paired a a) <$> A) = len A * match_.
Proof.
  induction A as [|a A [[H1 H2] H3]]; [done|].
  rewrite fmap_cons, len_cons. unfold aligns. simpl. rewrite pair_score_refl.
  split; [split; by f_equal | lia].
Qed.

Lemma optr_self match_ mismatch gap ra :
  mismatch ≤ match_ → 2 * gap ≤ match_ → optr match_ mismatch gap ra ra = len ra * match_.
Proof.
  intros Hm Hg.
  destruct (optr_max match_ mismatch gap ra ra) as [(al & [H1 H2] & Hsc) Hub].
  pose proof (al_score_upper match_ mismatch gap al Hm Hg) as Hup.
  rewrite H1, H2, Hsc in Hup.
  destruct (al_score_diagonal match_ mismatch gap ra) as [Hd Hds].
  specialize (Hub _ Hd). rewrite Hds in Hub. lia.
Qed.

Lemma trace_r_self match_ mismatch gap ra :
  mismatch ≤ match_ → 2 * gap ≤ match_ →
  trace_r match_ mismatch gap ra ra = (λ a, Paired a a) <$> ra.
Proof.
  intros Hm Hg. induction ra as [|a ra IH]; [done|].
  rewrite trace_r_cons, !optr_self, pair_score_refl, len_cons by done.
  destruct (Z.eqb_spec ((len ra + 1) * match_) (len ra * match_ + match_)) as [_|E]; [|lia].
  by rewrite IH, fmap_cons.
Qed.

Lemma rows_of_diagonal (A : str) :
  top <$> ((λ a, Paired a a) <$> A) = A ∧ bottom <$> ((λ a, Paired a a) <$> A) = A.
Proof. induction A as [|a A [H1 H2]]; [done|]. rewrite !fmap_cons. simpl. by rewrite H1, H2. Qed.

(** ** Further properties of [needleman_wunsch] *)

(** X1: [needleman_wunsch] computes exactly the recursive function
    [needleman_wunsch_rec]: the value of the recurrence on the whole
    inputs and the rows traced back with the order diagonal, vertical,
    horizontal. *)
Theorem needleman_wunsch_refines_rec fuel seq1 seq2 match_ mismatch gap :
  (length seq1 + length seq2 ≤ fuel)%nat →
  needleman_wunsch fuel seq1 seq2 match_ mismatch gap =
    Return (needleman_wunsch_rec seq1 seq2 match_ mismatch gap).
Proof. apply needleman_wunsch_exact. Qed.

(** X2: for inputs free of the gap symbol the returned score is the
    score of the two returned rows read column by column. *)
Theorem returned_rows_score A B match_ mismatch gap fuel :
  gap_free A → gap_free B → (length A + length B ≤ fuel)%nat →
  ∃ score a1 a2,
    needleman_wunsch fuel A B match_ mismatch gap = Return (score, a1, a2) ∧
    rows_score match_ mismatch gap a1 a2 = score.
Proof.
  intros HA HB Hfuel.
  destruct (needleman_wunsch_spec fuel A B match_ mismatch gap Hfuel)
    as (al & [H1 H2] & Hsc & Hnw).
  eexists _, _, _. split; [exact Hnw|].
  rewrite rows_score_al by congruence. exact Hsc.
Qed.

(** X3: both returned rows are at least as long as the longer input
    and at most as long as the two inputs together. *)
Theorem aligned_length_bounds A B match_ mismatch gap fuel :
  (length A + length B ≤ fuel)%nat →
  ∃ score a1 a2,
    needleman_wunsch fuel A B match_ mismatch gap = Return (score, a1, a2) ∧
    length a2 = length a1 ∧
    (length A ≤ length a1 ∧ length B ≤ length a1 ∧ length a1 ≤ length A + length B)%nat.
Proof.
  intros Hfuel.
  destruct (needleman_wunsch_spec fuel A B match_ mismatch gap Hfuel)
    as (al & [H1 H2] & _ & Hnw).
  eexists _, _, _. split; [exact Hnw|].
  pose proof (al_length_bounds al) as Hb. rewrite H1, H2 in Hb.
  rewrite !length_fmap. split; [done|lia].
Qed.

(** X4: with [mismatch ≤ match] and [2 * gap ≤ match], aligning a
    sequence with itself returns it unchanged in both rows with score
    [len(A) * match]. *)
Theorem align_with_itself A match_ mismatch gap fuel :
  mismatch ≤ match_ → 2 * gap ≤ match_ → (length A + length A ≤ fuel)%nat →
  needleman_wunsch fuel A A match_ mismatch gap = Return (len A * match_, A, A).
Proof.
  intros Hm Hg Hfuel. rewrite needleman_wunsch_exact by done.
  unfold needleman_wunsch_rec. rewrite optr_self, trace_r_self by done.
  rewrite <- fmap_reverse, reverse_involutive.
  destruct (rows_of_diagonal A) as [-> ->].
  unfold len. by rewrite length_reverse.
Qed.

(** X5: whatever the inputs hold, each returned row is its input with
    gap symbols inserted and nothing else changed. *)
Theorem aligned_rows_are_gap_insertions A B match_ mismatch gap fuel :
  (length A + length B ≤ fuel)%nat →
  ∃ score a1 a2,
    needleman_wunsch fuel A B match_ mismatch gap = Return (score, a1, a2) ∧
    gap_insertion A a1 ∧ gap_insertion B a2.
Proof.
  intros Hfuel.
  destruct (needleman_wunsch_spec fuel A B match_ mismatch gap Hfuel)
    as (al & [H1 H2] & _ & Hnw).
  eexists _, _, _. split; [exact Hnw|]. split.
  - rewrite <- H1. apply gap_insertion_top.
  - rewrite <- H2. apply gap_insertion_bottom.
Qed.

(** X6: the returned score is at least the cost of gapping every
    symbol, and with [mismatch ≤ match] and [2 * gap ≤ match] at most
    [match] per two input symbols. *)
Theorem score_bounds A B match_ mismatch gap fuel :
  (length A + length B ≤ fuel)%nat →
  ∃ score a1 a2,
    needleman_wunsch fuel A B match_ mismatch gap = Return (score, a1, a2) ∧
    (len A + len B) * gap ≤ score ∧
    (mismatch ≤ match_ → 2 * gap ≤ match_ → 2 * score ≤ (len A + len B) * match_).
Proof.
  intros Hfuel.
  destruct (needleman_wunsch_spec fuel A B match_ mismatch gap Hfuel)
    as (al & [H1 H2] & Hsc & Hnw).
  eexists _, _, _. split; [exact Hnw|]. split.
  - destruct (al_score_all_gaps match_ mismatch gap A B) as [Hal <-].
    by apply optr_reverse_max.
  - intros Hm Hg. rewrite <- Hsc, <- H1, <- H2. by apply al_score_upper.
Qed.

(** X7: [build_dp] raises nothing and returns a matrix of [m + 1] rows
    of [n + 1] cells whose borders hold the cumulated gap penalty and
    whose inner cells satisfy the three-way recurrence. *)
Theorem build_dp_recurrence seq1 seq2 match_ mismatch gap :
  ∃ dp, build_dp seq1 seq2 match_ mismatch gap = Return dp ∧
    shaped dp (len seq1) (len seq2) ∧
    (∀ i, 0 ≤ i ≤ len seq1 → cell dp i 0 = i * gap) ∧
    (∀ j, 0 ≤ j ≤ len seq2 → cell dp 0 j = j * gap) ∧
    ∀ i j, 1 ≤ i ≤ len seq1 → 1 ≤ j ≤ len seq2 →
      ∃ a b, seq1 !! Z.to_nat (i - 1) = Some a ∧ seq2 !! Z.to_nat (j - 1) = Some b ∧
        cell dp i j =
          Z.max (Z.max (cell dp (i - 1) (j - 1) + pair_score match_ mismatch a b)
                       (cell dp (i - 1) j + gap))
                (cell dp i (j - 1) + gap).
Proof.
  destruct (build_dp_filled seq1 seq2 match_ mismatch gap) as (dp & Hb & Hs & Hc).
  pose proof (len_nonneg seq1). pose proof (len_nonneg seq2).
  exists dp. split_and!; try done.
  - intros i Hi. rewrite Hc by lia. by apply opt_col0.
  - intros j Hj. rewrite Hc by lia. by apply opt_row0.
  - intros i j Hi Hj.
    destruct (match_score_ok seq1 seq2 match_ mismatch i j) as (a & b & Ha & Hb' & _);
      [lia..|].
    exists a, b. split_and!; try done.
    rewrite !Hc by lia. apply opt_step; (done || lia).
Qed.

(** ** Further properties of [propagate_gaps_to_msa] and [msa] *)

Lemma weave_gap_free aligned row : gap_free aligned → weave aligned row = row.
Proof.
  unfold gap_free. revert row. induction aligned as [|c aligned IH]; intros row Hg; [done|].
  apply not_elem_of_cons in Hg as [Hc Hg]. simpl.
  destruct (Ascii.eqb_spec c gap_char) as [->|_]; [done|].
  destruct row as [|x row]; [by apply IH|]. f_equal. by apply IH.
Qed.

Lemma others_insert (f : str → str) (seq_index : Z) (rows : list str) (k : nat) x :
  (0 ≤ seq_index → k = Z.to_nat seq_index) →
  <[k := x]> (others f seq_index rows) = <[k := x]> (f <$> rows).
Proof.
  intros Hk. apply list_eq. intros j.
  destruct (decide (j = k)) as [->|Hj].
  - destruct (decide (k < length rows)%nat).
    + by rewrite !list_lookup_insert_eq by (by rewrite ?others_length, ?length_fmap).
    + by rewrite !list_insert_ge, !lookup_ge_None_2
        by (rewrite ?others_length, ?length_fmap; lia).
  - rewrite !list_lookup_insert_ne by done. unfold others.
    rewrite list_lookup_imap, list_lookup_fmap.
    destruct (rows !! j); simpl; [|done]. f_equal.
    rewrite bool_decide_eq_false_2; [done|]. intros E. apply Hj. rewrite Hk; lia.
Qed.

Lemma propagate_gaps_to_msa_loops msa aligned_seq seq_index :
  propagate_gaps_to_msa msa aligned_seq seq_index =
    py_store (others (weave aligned_seq) seq_index msa) seq_index aligned_seq.
Proof.
  unfold propagate_gaps_to_msa, enumerate.
  pose proof (propagate_outer seq_index msa [] aligned_seq) as H.
  rewrite others_weave_nil in H. change (len (@nil ascii)) with 0 in H.
  simpl app in H. by rewrite H.
Qed.

(** X8: [propagate_gaps_to_msa] in closed form. An index outside
    [-len(msa) .. len(msa) - 1] raises [IndexError] (so does any index
    on an empty block); otherwise every row is woven with the gaps of
    the aligned row and the row at the index, counted from the end when
    negative, is replaced by the aligned row. *)
Theorem propagate_gaps_closed_form msa aligned_seq seq_index :
  propagate_gaps_to_msa msa aligned_seq seq_index =
    if bool_decide (- len msa ≤ seq_index < len msa) then
      Return (<[Z.to_nat (if seq_index <? 0 then seq_index + len msa else seq_index)
                := aligned_seq]> (weave aligned_seq <$> msa))
    else Raise IndexError.
Proof.
  rewrite propagate_gaps_to_msa_loops. unfold py_store.
  assert (len (others (weave aligned_seq) seq_index msa) = len msa) as ->
    by (unfold len; by rewrite others_length).
  pose proof (len_nonneg msa).
  destruct (Z.ltb_spec seq_index 0) as [Hneg|Hpos].
  - destruct (Z.ltb_spec (seq_index + len msa) 0).
    + by rewrite bool_decide_eq_false_2 by lia.
    + destruct (Z.ltb_spec (seq_index + len msa) (len msa)); [|lia].
      rewrite bool_decide_eq_true_2 by lia. f_equal. apply others_insert. lia.
  - destruct (Z.ltb_spec seq_index 0); [lia|].
    destruct (Z.ltb_spec seq_index (len msa)).
    + rewrite bool_decide_eq_true_2 by lia. f_equal. by apply others_insert.
    + by rewrite bool_decide_eq_false_2 by lia.
Qed.

(** X9: an aligned row without gap symbols changes no other row: the
    block comes back with only the row at [seq_index] replaced. *)
Theorem propagate_without_gaps msa aligned_seq seq_index :
  gap_free aligned_seq → 0 ≤ seq_index < len msa →
  propagate_gaps_to_msa msa aligned_seq seq_index =
    Return (<[Z.to_nat seq_index := aligned_seq]> msa).
Proof.
  intros Hg Hidx. rewrite propagate_gaps_to_msa_loops.
  rewrite py_store_ok by (unfold len in *; by rewrite others_length).
  f_equal. rewrite others_insert by done. f_equal.
  apply list_eq. intros j. rewrite list_lookup_fmap.
  destruct (msa !! j); simpl; [|done]. f_equal. by apply weave_gap_free.
Qed.

(** X10: propagation only ever inserts gap symbols into the other
    rows: each keeps its symbols in order, so deleting the gap symbols
    gives the same string before and after. *)
Theorem propagate_keeps_residues msa aligned_seq seq_index :
  0 ≤ seq_index < len msa →
  ∃ msa', propagate_gaps_to_msa msa aligned_seq seq_index = Return msa' ∧
    ∀ (j : nat) row, j ≠ Z.to_nat seq_index → msa !! j = Some row →
      ∃ row', msa' !! j = Some row' ∧ gap_insertion row row' ∧
              remove_gaps row' = remove_gaps row.
Proof.
  intros Hidx. rewrite propagate_gaps_to_msa_loops.
  rewrite py_store_ok by (unfold len in *; by rewrite others_length).
  eexists. split; [done|]. intros j row Hj Hrow.
  exists (weave aligned_seq row). split_and!.
  - rewrite others_insert by done. rewrite list_lookup_insert_ne by done.
    by rewrite list_lookup_fmap, Hrow.
  - apply gap_insertion_weave.
  - apply gap_insertion_remove_gaps, gap_insertion_weave.
Qed.

Lemma needleman_wunsch_Return_inv fuel A B match_ mismatch gap score a1 a2 :
  needleman_wunsch fuel A B match_ mismatch gap = Return (score, a1, a2) →
  ∃ al, aligns al A B ∧ a1 = top <$> al ∧ a2 = bottom <$> al ∧
        al_score match_ mismatch gap al = score.
Proof.
  intros Hnw.
  apply (needleman_wunsch_mono fuel (max fuel (length A + length B))) in Hnw; [|lia].
  destruct (needleman_wunsch_spec (max fuel (length A + length B)) A B match_ mismatch gap)
    as (al & Hal & Hsc & Hspec); [lia|].
  rewrite Hspec in Hnw. injection Hnw as <- <- <-. by exists al.
Qed.

Lemma py_index_Return_inv {A} (l : list A) (k : nat) x :
  py_index l (Z.of_nat k) = Return x → l !! k = Some x.
Proof.
  unfold py_index. destruct (Z.ltb_spec (Z.of_nat k) 0); [lia|].
  destruct (Z.ltb_spec (Z.of_nat k) 0); [lia|]. rewrite Nat2Z.id.
  destruct (l !! k); [by intros [= ->]|done].
Qed.

Lemma msa_step_inv fuel match_ mismatch gap seq block b :
  msa_step fuel match_ mismatch gap seq block = Return b →
  ∃ row0 al, block !! 0%nat = Some row0 ∧ aligns al row0 seq ∧
    b = <[0%nat := top <$> al]> (weave (top <$> al) <$> block) ++ [bottom <$> al].
Proof.
  unfold msa_step. intros (row0 & Hrow0 & H)%bind_Return_inv.
  apply (py_index_Return_inv block 0) in Hrow0.
  apply bind_Return_inv in H as ([[sc a1] a2] & Hnw & H).
  apply needleman_wunsch_Return_inv in Hnw as (al & Hal & -> & -> & _).
  exists row0, al. split; [done|]. split; [done|].
  rewrite propagate_gaps_closed_form in H.
  apply lookup_lt_Some in Hrow0.
  rewrite bool_decide_eq_true_2 in H by (unfold len; lia). simpl in H.
  by injection H as <-.
Qed.

Lemma Forall2_gap_insertion_step inputs block row0 al seq :
  Forall2 gap_insertion inputs block → block !! 0%nat = Some row0 → aligns al row0 seq →
  Forall2 gap_insertion (inputs ++ [seq])
    (<[0%nat := top <$> al]> (weave (top <$> al) <$> block) ++ [bottom <$> al]).
Proof.
  intros Hall Hrow0 [H1 H2]. apply Forall2_app.
  - destruct Hall as [|x r xs rs Hx Hrest]; [done|].
    simpl in Hrow0. injection Hrow0 as ->. simpl. constructor.
    + apply (gap_insertion_trans _ row0); [done|]. rewrite <- H1. apply gap_insertion_top.
    + clear Hx. induction Hrest as [|x' r' xs' rs' Hx' _ IH]; simpl; constructor; [|done].
      apply (gap_insertion_trans _ r'); [done|]. apply gap_insertion_weave.
  - constructor; [|constructor]. rewrite <- H2. apply gap_insertion_bottom.
Qed.

Lemma msa_rounds_gap_insertion fuel match_ mismatch gap seqs inputs block b :
  Forall2 gap_insertion inputs block →
  for_each seqs (msa_step fuel match_ mismatch gap) block = Return b →
  Forall2 gap_insertion (inputs ++ seqs) b.
Proof.
  revert inputs block. induction seqs as [|seq seqs IH]; intros inputs block Hall; simpl.
  - intros [= <-]. by rewrite app_nil_r.
  - intros (b1 & Hstep & Hrest)%bind_Return_inv.
    apply msa_step_inv in Hstep as (row0 & al & Hrow0 & Hal & ->).
    replace (inputs ++ seq :: seqs) with ((inputs ++ [seq]) ++ seqs)
      by (by rewrite <- app_assoc).
    eapply IH; [|exact Hrest]. by eapply Forall2_gap_insertion_step.
Qed.

Lemma pad_rows_gap_insertion inputs rows rows' :
  Forall2 gap_insertion inputs rows → pad_rows rows = Return rows' →
  Forall2 gap_insertion inputs rows'.
Proof.
  intros Hall. unfold pad_rows. intros (w & _ & [= <-])%bind_Return_inv.
  apply Forall2_fmap_r. eapply Forall2_impl; [exact Hall|].
  intros x r Hx. by apply gap_insertion_pad.
Qed.

Lemma msa_gap_insertion fuel sequences match_ mismatch gap score block :
  msa fuel sequences match_ mismatch gap = Return (score, block) →
  Forall2 gap_insertion sequences block.
Proof.
  unfold msa, msa_loop. intros (b & Hloop & H)%bind_Return_inv.
  apply bind_Return_inv in Hloop as (s0 & Hs0 & Hloop).
  apply (py_index_Return_inv sequences 0) in Hs0.
  apply bind_Return_inv in H as (rows & Hpad & H).
  apply bind_Return_inv in H as (v & _ & [= _ <-]).
  destruct sequences as [|x seqs]; [done|]. injection Hs0 as ->. simpl drop in Hloop.
  rewrite drop_0 in Hloop.
  eapply pad_rows_gap_insertion; [|exact Hpad].
  apply (msa_rounds_gap_insertion _ _ _ _ seqs [s0] [s0]) in Hloop; [done|].
  constructor; [apply gap_insertion_refl|constructor].
Qed.

Lemma Forall2_gap_insertion_remove_gaps inputs rows :
  Forall2 gap_insertion inputs rows → remove_gaps <$> rows = remove_gaps <$> inputs.
Proof.
  induction 1 as [|x r xs rs Hx _ IH]; [done|].
  rewrite !fmap_cons. f_equal; [by apply gap_insertion_remove_gaps|done].
Qed.

(** X11: on any non-empty input [msa] returns a block whose k-th row
    is the k-th input sequence with gap symbols inserted and nothing
    else changed; deleting the gap symbols from the rows gives back the
    inputs with their gap symbols deleted. *)
Theorem msa_rows_are_gap_insertions sequences match_ mismatch gap :
  (1 ≤ length sequences)%nat →
  ∃ fuel0 score block,
    (∀ fuel, (fuel0 ≤ fuel)%nat →
       msa fuel sequences match_ mismatch gap = Return (score, block)) ∧
    Forall2 gap_insertion sequences block ∧
    remove_gaps <$> block = remove_gaps <$> sequences.
Proof.
  intros Hn.
  destruct (msa_returns sequences match_ mismatch gap)
    as (fuel0 & score & block & Hmsa & _ & _).
  { intros ->. simpl in Hn. lia. }
  pose proof (msa_gap_insertion _ _ _ _ _ _ _ Hmsa) as Hall.
  exists fuel0, score, block. split_and!.
  - intros fuel Hfuel. by apply (msa_mono fuel0).
  - done.
  - by apply Forall2_gap_insertion_remove_gaps.
Qed.

Lemma rescored_columns match_ mismatch gap al :
  gap ≤ match_ → gap ≤ mismatch →
  aligns ((λ c, Paired (top c) (bottom c)) <$> al) (top <$> al) (bottom <$> al) ∧
  al_score match_ mismatch gap al
    ≤ al_score match_ mismatch gap ((λ c, Paired (top c) (bottom c)) <$> al).
Proof.
  intros Hm Hmm. induction al as [|c al [[H1 H2] H3]]; [done|].
  rewrite !fmap_cons. unfold aligns. simpl residues1. simpl residues2. simpl al_score.
  split; [split; by f_equal|].
  assert (∀ a b, gap ≤ pair_score match_ mismatch a b) as Hps
    by (intros a b; unfold pair_score; destruct (Ascii.eqb a b); lia).
  destruct c as [a b|a|b]; simpl.
  - lia.
  - pose proof (Hps a gap_char). lia.
  - pose proof (Hps gap_char b). lia.
Qed.

(** X12: for two sequences [msa] returns exactly the two rows of
    their pairwise alignment (no padding is needed); the score it
    reports is that of aligning these two gapped rows afresh, which is
    no less than the pairwise score when [gap ≤ match] and
    [gap ≤ mismatch]. *)
Theorem msa_of_two A B match_ mismatch gap fuel :
  (2 * (length A + length B) ≤ fuel)%nat →
  ∃ score a1 a2 score' b1 b2,
    needleman_wunsch fuel A B match_ mismatch gap = Return (score, a1, a2) ∧
    needleman_wunsch fuel a1 a2 match_ mismatch gap = Return (score', b1, b2) ∧
    msa fuel [A; B] match_ mismatch gap = Return (score', [a1; a2]) ∧
    (gap ≤ match_ → gap ≤ mismatch → score ≤ score').
Proof.
  intros Hfuel.
  destruct (needleman_wunsch_spec fuel A B match_ mismatch gap ltac:(lia))
    as (al & [H1 H2] & Hsc & Hnw).
  pose proof (al_length_bounds al) as Hb. rewrite H1, H2 in Hb.
  destruct (needleman_wunsch_spec fuel (top <$> al) (bottom <$> al) match_ mismatch gap)
    as (al' & Hal' & Hsc' & Hnw').
  { rewrite !length_fmap. lia. }
  eexists _, (top <$> al), (bottom <$> al), _, _, _.
  split; [exact Hnw|]. split; [exact Hnw'|]. split.
  - unfold msa, msa_loop. simpl. unfold msa_step.
    rewrite (py_index_ok [A] 0 A) by done. simpl. rewrite Hnw. simpl.
    rewrite propagate_gaps_closed_form.
    rewrite bool_decide_eq_true_2 by (unfold len; simpl; lia). simpl.
    unfold pad_rows. simpl. unfold ljust, len. rewrite !length_fmap, Z.max_id, Z.sub_diag.
    simpl. rewrite !app_nil_r.
    unfold pair_scores.
    change (range 0 (len [top <$> al; bottom <$> al])) with [0; 1].
    simpl for_each.
    change (range (0 + 1) (len [top <$> al; bottom <$> al])) with [1].
    change (range (1 + 1) (len [top <$> al; bottom <$> al])) with (@nil Z).
    simpl. rewrite Hnw'. reflexivity.
  - intros Hm Hmm.
    destruct (rescored_columns match_ mismatch gap al Hm Hmm) as [Hal2 Hle].
    rewrite <- Hsc. etrans; [exact Hle|]. by apply optr_reverse_max.
Qed.

(** ** The reported total score *)

Lemma range_cons a b : a < b → range a b = a :: range (a + 1) b.
Proof.
  intros Hab. unfold range. rewrite seqZ_cons by lia. f_equal. f_equal; lia.
Qed.

Lemma range_nil a b : b ≤ a → range a b = [].
Proof. intros Hab. unfold range. apply seqZ_nil. lia. Qed.

(** A [for] loop over [range(a, b)] that adds [g k] at each turn. *)
Lemma for_each_range_sum (g : Z → Z) (body : Z → Z → outcome Z) a b acc :
  (∀ k s, a ≤ k < b → body k s = Return (s + g k)) →
  for_each (range a b) body acc = Return (acc + sumZ (g <$> range a b)).
Proof.
  intros Hbody. destruct (decide (b ≤ a)) as [Hle|Hlt].
  { rewrite range_nil by done. simpl. f_equal. unfold sumZ. simpl. lia. }
  remember (Z.to_nat (b - a)) as d eqn:Hd. revert a acc Hbody Hlt Hd.
  induction d as [|d IH]; intros a acc Hbody Hlt Hd; [lia|].
  rewrite range_cons by lia. simpl. rewrite Hbody by lia. simpl.
  destruct (decide (b ≤ a + 1)) as [Hle'|Hlt'].
  - rewrite range_nil by done. simpl. f_equal. unfold sumZ. simpl. lia.
  - rewrite IH; [|intros; apply Hbody; lia|lia|lia].
    f_equal. symmetry. apply Z.add_assoc.
Qed.

Lemma fmap_range_drop {A} (h : A → Z) (d : A) (l : list A) (a : Z) :
  0 ≤ a →
  (λ k, h (default d (l !! Z.to_nat k))) <$> range a (len l) = h <$> drop (Z.to_nat a) l.
Proof.
  intros Ha. apply list_eq. intros p. unfold range. rewrite !list_lookup_fmap, lookup_drop.
  destruct (decide (Z.of_nat p < len l - a)) as [Hp|Hp].
  - rewrite lookup_seqZ_lt by done. simpl.
    replace (Z.to_nat (a + Z.of_nat p)) with (Z.to_nat a + p)%nat by lia.
    destruct (lookup_lt_is_Some_2 l (Z.to_nat a + p)) as [x ->]; [unfold len in Hp; lia|].
    done.
  - rewrite lookup_seqZ_ge by lia. rewrite lookup_ge_None_2; [done|].
    unfold len in Hp. lia.
Qed.

Lemma pair_total_ranges match_ mismatch gap (pre rows : list str) :
  sumZ ((λ i,
           sumZ ((λ j, optr match_ mismatch gap
                         (reverse (default [] ((pre ++ rows) !! Z.to_nat i)))
                         (reverse (default [] ((pre ++ rows) !! Z.to_nat j))))
                 <$> range (i + 1) (len (pre ++ rows))))
        <$> range (len pre) (len (pre ++ rows)))
  = pair_total match_ mismatch gap rows.
Proof.
  revert pre. induction rows as [|r rest IH]; intros pre.
  - rewrite app_nil_r, range_nil by lia. done.
  - assert (len (pre ++ r :: rest) = len pre + 1 + len rest) as Hlen
      by (unfold len; rewrite length_app; simpl; lia).
    pose proof (len_nonneg pre). pose proof (len_nonneg rest).
    rewrite range_cons by lia. rewrite fmap_cons. simpl pair_total.
    unfold sumZ at 1. simpl foldr. fold (sumZ). f_equal.
    + rewrite (fmap_range_drop
                 (λ r', optr match_ mismatch gap
                          (reverse (default [] ((pre ++ r :: rest) !! Z.to_nat (len pre))))
                          (reverse r')) [] (pre ++ r :: rest)) by lia.
      unfold len. rewrite Nat2Z.id, list_lookup_middle by done. simpl.
      replace (Z.to_nat (Z.of_nat (length pre) + 1)) with (S (length pre)) by lia.
      replace (pre ++ r :: rest) with ((pre ++ [r]) ++ rest) by (by rewrite <- app_assoc).
      rewrite drop_app_length'; [done|]. rewrite length_app. simpl. lia.
    + specialize (IH (pre ++ [r])).
      replace ((pre ++ [r]) ++ rest) with (pre ++ r :: rest) in IH
        by (by rewrite <- app_assoc).
      replace (len (pre ++ [r])) with (len pre + 1) in IH
        by (unfold len; rewrite length_app; simpl; lia).
      exact IH.
Qed.

Lemma pair_scores_total fuel (rows : list str) match_ mismatch gap :
  (∀ r1 r2, r1 ∈ rows → r2 ∈ rows → (length r1 + length r2 ≤ fuel)%nat) →
  pair_scores fuel rows match_ mismatch gap = Return (pair_total match_ mismatch gap rows).
Proof.
  intros Hfuel. unfold pair_scores.
  rewrite (for_each_range_sum
    (λ i, sumZ ((λ j, optr match_ mismatch gap
                        (reverse (default [] (rows !! Z.to_nat i)))
                        (reverse (default [] (rows !! Z.to_nat j))))
                <$> range (i + 1) (len rows)))).
  - rewrite Z.add_0_l. f_equal. apply (pair_total_ranges match_ mismatch gap [] rows).
  - intros i acc Hi. apply for_each_range_sum. intros j acc' Hj.
    destruct (py_index_lt rows i) as (ri & Hri & ->); [lia|].
    destruct (py_index_lt rows j) as (rj & Hrj & ->); [lia|]. simpl.
    rewrite needleman_wunsch_exact.
    + unfold needleman_wunsch_rec. simpl. by rewrite Hri, Hrj.
    + apply Hfuel; by eapply list_elem_of_lookup_2.
Qed.

Lemma max_pair_length (rows : list str) :
  ∃ fuel, ∀ r1 r2, r1 ∈ rows → r2 ∈ rows → (length r1 + length r2 ≤ fuel)%nat.
Proof.
  assert (∃ L, ∀ r, r ∈ rows → (length r ≤ L)%nat) as [L HL].
  { induction rows as [|r rows [L HL]].
    - exists 0%nat. intros r Hr. by apply elem_of_nil in Hr.
    - exists (max (length r) L). intros r' [->|Hr']%elem_of_cons; [lia|].
      specialize (HL _ Hr'). lia. }
  exists (L + L)%nat. intros r1 r2 H1 H2. pose proof (HL _ H1). pose proof (HL _ H2). lia.
Qed.

(** X13: the score [msa] reports is the sum, over all pairs of rows of
    the returned block, of the best global alignment score of the two
    rows aligned afresh, gap symbols counting as ordinary symbols. *)
Theorem msa_score_is_pair_total sequences match_ mismatch gap :
  (1 ≤ length sequences)%nat →
  ∃ fuel0 score block,
    (∀ fuel, (fuel0 ≤ fuel)%nat →
       msa fuel sequences match_ mismatch gap = Return (score, block)) ∧
    score = pair_total match_ mismatch gap block ∧
    ∀ r1 r2, max_alignment_score match_ mismatch gap r1 r2
               (optr match_ mismatch gap (reverse r1) (reverse r2)).
Proof.
  intros Hn.
  destruct (msa_returns sequences match_ mismatch gap)
    as (fuel0 & score & block & Hmsa & _ & _).
  { intros ->. simpl in Hn. lia. }
  exists fuel0, score, block. split_and!.
  - intros fuel Hfuel. by apply (msa_mono fuel0).
  - destruct (max_pair_length block) as (fuel1 & Hfuel1).
    apply (msa_mono fuel0 (max fuel0 fuel1)) in Hmsa; [|lia].
    unfold msa in Hmsa. apply bind_Return_inv in Hmsa as (b & _ & H).
    apply bind_Return_inv in H as (rows & _ & H).
    apply bind_Return_inv in H as (v & Hv & [= <- <-]).
    rewrite pair_scores_total in Hv; [by injection Hv|].
    intros r1 r2 H1 H2. specialize (Hfuel1 r1 r2 H1 H2). lia.
  - intros r1 r2. apply optr_reverse_max.
Qed.

(** ** Further concrete runs *)

Lemma gap_free_ag : gap_free (py_str "AG").
Proof.
  unfold gap_free. intros H. repeat (apply elem_of_cons in H as [H|H]; [discriminate|]).
  by apply elem_of_nil in H.
Defined.

(** X1 at ["ACGT"], ["AGT"]. *)
Lemma needleman_wunsch_refines_rec_witness :
  needleman_wunsch 7 (py_str "ACGT") (py_str "AGT") 1 (-1) (-2) =
    Return (needleman_wunsch_rec (py_str "ACGT") (py_str "AGT") 1 (-1) (-2)).
Proof.
  apply (needleman_wunsch_refines_rec 7 (py_str "ACGT") (py_str "AGT") 1 (-1) (-2)).
  simpl. lia.
Defined.

(** X2 at ["ACGT"], ["AGT"]. *)
Lemma returned_rows_score_witness :
  ∃ score a1 a2,
    needleman_wunsch 7 (py_str "ACGT") (py_str "AGT") 1 (-1) (-2) = Return (score, a1, a2) ∧
    rows_score 1 (-1) (-2) a1 a2 = score.
Proof.
  apply (returned_rows_score (py_str "ACGT") (py_str "AGT") 1 (-1) (-2) 7).
  - apply gap_free_acgt.
  - apply gap_free_agt.
  - simpl. lia.
Defined.

(** X3 at ["ACGT"], ["AGT"]. *)
Lemma aligned_length_bounds_witness :
  ∃ score a1 a2,
    needleman_wunsch 7 (py_str "ACGT") (py_str "AGT") 1 (-1) (-2) = Return (score, a1, a2) ∧
    length a2 = length a1 ∧
    (length (py_str "ACGT") ≤ length a1 ∧ length (py_str "AGT") ≤ length a1 ∧
     length a1 ≤ length (py_str "ACGT") + length (py_str "AGT"))%nat.
Proof.
  apply (aligned_length_bounds (py_str "ACGT") (py_str "AGT") 1 (-1) (-2) 7). simpl. lia.
Defined.

(** X4 at ["ACGT"]. *)
Lemma align_with_itself_witness :
  needleman_wunsch 8 (py_str "ACGT") (py_str "ACGT") 1 (-1) (-2) =
    Return (len (py_str "ACGT") * 1, py_str "ACGT", py_str "ACGT").
Proof.
  apply (align_with_itself (py_str "ACGT") 1 (-1) (-2) 8); [lia|lia|simpl; lia].
Defined.

(** X5 at ["A-C"], ["AC"]: an input that already holds a gap symbol. *)
Lemma aligned_rows_are_gap_insertions_witness :
  ∃ score a1 a2,
    needleman_wunsch 5 (py_str "A-C") (py_str "AC") 1 (-1) (-2) = Return (score, a1, a2) ∧
    gap_insertion (py_str "A-C") a1 ∧ gap_insertion (py_str "AC") a2.
Proof.
  apply (aligned_rows_are_gap_insertions (py_str "A-C") (py_str "AC") 1 (-1) (-2) 5).
  simpl. lia.
Defined.

(** X6 at ["ACGT"], ["AGT"]. *)
Lemma score_bounds_witness :
  ∃ score a1 a2,
    needleman_wunsch 7 (py_str "ACGT") (py_str "AGT") 1 (-1) (-2) = Return (score, a1, a2) ∧
    (len (py_str "ACGT") + len (py_str "AGT")) * -2 ≤ score ∧
    2 * score ≤ (len (py_str "ACGT") + len (py_str "AGT")) * 1.
Proof.
  destruct (score_bounds (py_str "ACGT") (py_str "AGT") 1 (-1) (-2) 7)
    as (score & a1 & a2 & Hnw & Hlo & Hhi).
  - simpl. lia.
  - exists score, a1, a2.
    exact (conj Hnw (conj Hlo (Hhi ltac:(lia) ltac:(lia)))).
Defined.

(** X7 at ["ACGT"], ["AGT"], cells (2, 0), (0, 3) and (1, 1). *)
Lemma build_dp_recurrence_witness :
  ∃ dp, build_dp (py_str "ACGT") (py_str "AGT") 1 (-1) (-2) = Return dp ∧
    cell dp 2 0 = 2 * -2 ∧ cell dp 0 3 = 3 * -2 ∧
    ∃ a b, py_str "ACGT" !! Z.to_nat (1 - 1) = Some a ∧
           py_str "AGT" !! Z.to_nat (1 - 1) = Some b ∧
      cell dp 1 1 =
        Z.max (Z.max (cell dp (1 - 1) (1 - 1) + pair_score 1 (-1) a b)
                     (cell dp (1 - 1) 1 + -2))
              (cell dp 1 (1 - 1) + -2).
Proof.
  destruct (build_dp_recurrence (py_str "ACGT") (py_str "AGT") 1 (-1) (-2))
    as (dp & Hb & _ & Hc & Hr & Hin).
  exists dp. split; [exact Hb|]. split; [|split].
  - apply Hc. unfold len. simpl. lia.
  - apply Hr. unfold len. simpl. lia.
  - apply Hin; unfold len; simpl; lia.
Defined.

(** X9 at the block ["AC"], ["A-"] with the gap-free aligned row ["AG"]. *)
Lemma propagate_without_gaps_witness :
  propagate_gaps_to_msa [py_str "AC"; py_str "A-"] (py_str "AG") 0 =
    Return (<[Z.to_nat 0 := py_str "AG"]> [py_str "AC"; py_str "A-"]).
Proof.
  apply (propagate_without_gaps [py_str "AC"; py_str "A-"] (py_str "AG") 0).
  - apply gap_free_ag.
  - unfold len. simpl. lia.
Defined.

(** X10 at the block ["-A"], ["AA"] with the aligned row ["-A"]. *)
Lemma propagate_keeps_residues_witness :
  ∃ msa', propagate_gaps_to_msa [py_str "-A"; py_str "AA"] (py_str "-A") 0 = Return msa' ∧
    ∀ (j : nat) row, j ≠ Z.to_nat 0 → [py_str "-A"; py_str "AA"] !! j = Some row →
      ∃ row', msa' !! j = Some row' ∧ gap_insertion row row' ∧
              remove_gaps row' = remove_gaps row.
Proof.
  apply (propagate_keeps_residues [py_str "-A"; py_str "AA"] (py_str "-A") 0).
  unfold len. simpl. lia.
Defined.

(** X11 at ["A"], ["AA"], ["A"]. *)
Lemma msa_rows_are_gap_insertions_witness :
  ∃ fuel0 score block,
    (∀ fuel, (fuel0 ≤ fuel)%nat →
       msa fuel [py_str "A"; py_str "AA"; py_str "A"] 1 (-1) (-2) = Return (score, block)) ∧
    Forall2 gap_insertion [py_str "A"; py_str "AA"; py_str "A"] block ∧
    remove_gaps <$> block = remove_gaps <$> [py_str "A"; py_str "AA"; py_str "A"].
Proof.
  apply (msa_rows_are_gap_insertions [py_str "A"; py_str "AA"; py_str "A"] 1 (-1) (-2)).
  simpl. lia.
Defined.

(** X12 at ["ACGT"], ["AGT"]. *)
Lemma msa_of_two_witness :
  ∃ score a1 a2 score' b1 b2,
    needleman_wunsch 14 (py_str "ACGT") (py_str "AGT") 1 (-1) (-2) = Return (score, a1, a2) ∧
    needleman_wunsch 14 a1 a2 1 (-1) (-2) = Return (score', b1, b2) ∧
    msa 14 [py_str "ACGT"; py_str "AGT"] 1 (-1) (-2) = Return (score', [a1; a2]) ∧
    score ≤ score'.
Proof.
  destruct (msa_of_two (py_str "ACGT") (py_str "AGT") 1 (-1) (-2) 14)
    as (score & a1 & a2 & score' & b1 & b2 & H1 & H2 & H3 & H4).
  - simpl. lia.
  - exists score, a1, a2, score', b1, b2.
    exact (conj H1 (conj H2 (conj H3 (H4 ltac:(lia) ltac:(lia))))).
Defined.

(** X13 at ["A"], ["AA"], ["A"]. *)
Lemma msa_score_is_pair_total_witness :
  ∃ fuel0 score block,
    (∀ fuel, (fuel0 ≤ fuel)%nat →
       msa fuel [py_str "A"; py_str "AA"; py_str "A"] 1 (-1) (-2) = Return (score, block)) ∧
    score = pair_total 1 (-1) (-2) block ∧
    ∀ r1 r2, max_alignment_score 1 (-1) (-2) r1 r2
               (optr 1 (-1) (-2) (reverse r1) (reverse r2)).
Proof.
  apply (msa_score_is_pair_total [py_str "A"; py_str "AA"; py_str "A"] 1 (-1) (-2)).
  simpl. lia.
Defined.

(** ** Reversed inputs *)

Lemma max_alignment_score_unique match_ mismatch gap A B v w :
  max_alignment_score match_ mismatch gap A B v →
  max_alignment_score match_ mismatch gap A B w → v = w.
Proof.
  intros [(al1 & Hal1 & <-) Hub1] [(al2 & Hal2 & <-) Hub2].
  specialize (Hub1 _ Hal2). specialize (Hub2 _ Hal1). lia.
Qed.

Lemma optr_reverse match_ mismatch gap A B :
  optr match_ mismatch gap (reverse A) (reverse B) = optr match_ mismatch gap A B.
Proof.
  apply (max_alignment_score_unique match_ mismatch gap A B);
    [apply optr_reverse_max | apply optr_max].
Qed.

(** X14: reading both inputs backwards leaves the returned score
    unchanged. *)
Theorem score_of_reversed_inputs A B match_ mismatch gap fuel :
  (length A + length B ≤ fuel)%nat →
  ∃ score a1 a2 b1 b2,
    needleman_wunsch fuel A B match_ mismatch gap = Return (score, a1, a2) ∧
    needleman_wunsch fuel (reverse A) (reverse B) match_ mismatch gap
      = Return (score, b1, b2).
Proof.
  intros Hfuel.
  destruct (needleman_wunsch_spec fuel A B match_ mismatch gap Hfuel)
    as (al & _ & _ & Hnw).
  destruct (needleman_wunsch_spec fuel (reverse A) (reverse B) match_ mismatch gap)
    as (al' & _ & _ & Hnw').
  { by rewrite !length_reverse. }
  eexists _, _, _, _, _. split; [exact Hnw|].
  rewrite Hnw'. by rewrite !reverse_involutive, optr_reverse.
Qed.

(** X14 at ["ACGT"], ["AGT"]. *)
Lemma score_of_reversed_inputs_witness :
  ∃ score a1 a2 b1 b2,
    needleman_wunsch 7 (py_str "ACGT") (py_str "AGT") 1 (-1) (-2) = Return (score, a1, a2) ∧
    needleman_wunsch 7 (reverse (py_str "ACGT")) (reverse (py_str "AGT")) 1 (-1) (-2)
      = Return (score, b1, b2).
Proof.
  apply (score_of_reversed_inputs (py_str "ACGT") (py_str "AGT") 1 (-1) (-2) 7).
  simpl. lia.
Defined.
